(** * SafeCfg: the configuration guard of [src/SafeCfg.ts]

    The development has four parts.

    - [Js]: the fragment of the JavaScript store that the class touches:
      primitive values, references to objects and arrays kept in a heap,
      property reads, [Array.prototype.push], [console.log], and a small
      state-and-exception monad to thread the store through the calls.
      Objects hold data properties only (what an object literal or
      [JSON.parse] builds).
    - [Cfg]: the class itself, method by method, over that store, and what
      [load] guarantees there.
    - [Full]: the class again over a store whose objects may have accessor
      properties, where a read may throw any value; it is there that the
      handler of [load] can fail. On a store without accessors the two
      agree.
    - [Compiler] and [Engine]: the schema compiler, the dependency graph
      and the views of a loaded configuration, of which the sources hold
      the type declarations only ([src/types.ts]). *)

From Stdlib Require Import ZArith Ascii String List Lia.
From stdpp Require Import base gmap strings list relations.

Local Open Scope string_scope.
Local Open Scope Z_scope.

(* ===================================================================== *)
(** ** The JavaScript store *)
(* ===================================================================== *)

Module Js.

Abbreviation loc := positive (only parsing).

(** Values. [number] is restricted to the integers: no claim looks inside a
    number, only at whether a value is the boolean [true]. *)
Inductive val :=
| VUndefined
| VNull
| VBool (b : bool)
| VNum (n : Z)
| VStr (s : string)
| VRef (l : loc).

#[export] Instance val_eq_dec : EqDecision val.
Proof. solve_decision. Defined.

(** Heap cells: plain objects (string-keyed data properties) and arrays. *)
Inductive obj :=
| OObject (props : gmap string val)
| OArray (elems : list val).

(** What the engine throws: an [Error] instance, of which the class reads
    [message] only. *)
Record js_error := { err_name : string; err_message : string }.

(** The world a call runs in: the heap, what was written to the console, and
    the ambient [process.env]. *)
Record world := {
  heap : gmap loc obj;
  console : list string;
  process_env : gmap string string
}.

Definition with_heap (h : gmap loc obj) (w : world) : world :=
  {| heap := h; console := console w; process_env := process_env w |}.

Definition with_console (c : list string) (w : world) : world :=
  {| heap := heap w; console := c; process_env := process_env w |}.

(** *** The monad: state plus exceptions *)

Inductive outcome (A : Type) :=
| Ok (a : A)
| Throw (e : js_error).
Arguments Ok {A} a.
Arguments Throw {A} e.

Definition M (A : Type) : Type := world -> outcome A * world.

Definition ret {A} (a : A) : M A := fun w => (Ok a, w).

Definition bind {A B} (m : M A) (k : A -> M B) : M B :=
  fun w =>
    match m w with
    | (Ok a, w') => k a w'
    | (Throw e, w') => (Throw e, w')
    end.

Definition throw {A} (e : js_error) : M A := fun w => (Throw e, w).

(** [try { body } catch (error) { handler }] *)
Definition try_catch {A} (body : M A) (handler : js_error -> M A) : M A :=
  fun w =>
    match body w with
    | (Ok a, w') => (Ok a, w')
    | (Throw e, w') => handler e w'
    end.

Declare Scope js_scope.
Delimit Scope js_scope with js.
Notation "'let*' x ':=' c 'in' k" := (bind c (fun x => k))
  (at level 10, x name, c at level 100, k at level 200) : js_scope.
Notation "c ';;' k" := (bind c (fun _ => k))
  (at level 100, k at level 200, right associativity) : js_scope.

(** An [async] function with no [await] in it runs its body at the call and
    hands back a promise that is already settled. *)
Inductive promise (A : Type) :=
| Resolved (a : A)
| Rejected (e : js_error).
Arguments Resolved {A} a.
Arguments Rejected {A} e.

Definition async {A} (body : M A) (w : world) : promise A * world :=
  match body w with
  | (Ok a, w') => (Resolved a, w')
  | (Throw e, w') => (Rejected e, w')
  end.

(** *** Heap operations *)

Definition fresh_loc (h : gmap loc obj) : loc := fresh (dom h).

(** An object or array literal: a new cell. *)
Definition alloc (o : obj) : M loc :=
  fun w =>
    let l := fresh_loc (heap w) in
    (Ok l, with_heap (<[l := o]> (heap w)) w).

Definition console_log (s : string) : M unit :=
  fun w => (Ok tt, with_console (console w ++ [s]) w).

Definition TypeError (msg : string) : js_error :=
  {| err_name := "TypeError"; err_message := msg |}.

(** Node's wording for a property read on [null] or [undefined]. *)
Definition cannot_read (what key : string) : js_error :=
  TypeError ("Cannot read properties of " +:+ what +:+ " (reading '" +:+ key +:+ "')").

(** Array index keys are canonical decimal numerals: [0], or digits with no
    leading zero. *)
Definition digit_of (a : Ascii.ascii) : option nat :=
  let n := Ascii.nat_of_ascii a in
  if (48 <=? n)%nat && (n <=? 57)%nat then Some (n - 48)%nat else None.

Fixpoint digits_value (acc : nat) (s : string) : option nat :=
  match s with
  | EmptyString => Some acc
  | String a s' =>
      match digit_of a with
      | Some d => digits_value (10 * acc + d)%nat s'
      | None => None
      end
  end.

Definition array_index (key : string) : option nat :=
  match key with
  | EmptyString => None
  | String a rest =>
      if Ascii.eqb a "0"%char
      then (if String.eqb rest "" then Some 0%nat else None)
      else digits_value 0 key
  end.

(** [v[key]] (or [v.key]) on a data value. Primitives other than [null] and
    [undefined] are boxed: a string answers [length] and its indices, the
    other wrappers have no own data. The methods of the built-in prototypes
    ([toString], [push], ...) are not modelled: the keys read here ([debug],
    [length] and the field names of a configuration) name none of them, and
    a key that is not an own property reads as [undefined]. *)
Definition get_prop (v : val) (key : string) : M val :=
  fun w =>
    match v with
    | VUndefined => (Throw (cannot_read "undefined" key), w)
    | VNull => (Throw (cannot_read "null" key), w)
    | VBool _ | VNum _ => (Ok VUndefined, w)
    | VStr s =>
        if String.eqb key "length" then (Ok (VNum (Z.of_nat (String.length s))), w)
        else match array_index key with
             | Some i =>
                 match String.get i s with
                 | Some c => (Ok (VStr (String c EmptyString)), w)
                 | None => (Ok VUndefined, w)
                 end
             | None => (Ok VUndefined, w)
             end
    | VRef l =>
        match heap w !! l with
        | Some (OObject props) => (Ok (default VUndefined (props !! key)), w)
        | Some (OArray elems) =>
            if String.eqb key "length" then (Ok (VNum (Z.of_nat (length elems))), w)
            else match array_index key with
                 | Some i => (Ok (default VUndefined (elems !! i)), w)
                 | None => (Ok VUndefined, w)
                 end
        | None => (Ok VUndefined, w)
        end
    end.

(** [a.push(x)]: only arrays have [push]. *)
Definition array_push (a : val) (x : val) : M unit :=
  fun w =>
    match a with
    | VRef l =>
        match heap w !! l with
        | Some (OArray elems) =>
            (Ok tt, with_heap (<[l := OArray (elems ++ [x])]> (heap w)) w)
        | _ => (Throw (TypeError "push is not a function"), w)
        end
    | VUndefined => (Throw (cannot_read "undefined" "push"), w)
    | VNull => (Throw (cannot_read "null" "push"), w)
    | _ => (Throw (TypeError "push is not a function"), w)
    end.

(** [a === b] on data values: references compare by identity. *)
Definition strict_eq (a b : val) : bool := bool_decide (a = b).

End Js.

(* ===================================================================== *)
(** ** The class [SafeCfg] *)
(* ===================================================================== *)

Module Cfg.
Import Js.
Local Open Scope js_scope.

(** An optional property of an options object: not there, there with the
    value [undefined] (as in [{ environment: process.env.NODE_ENV }] when the
    variable is unset), or there with a value. *)
Inductive field (A : Type) :=
| Missing
| Undef
| Given (a : A).
Arguments Missing {A}.
Arguments Undef {A}.
Arguments Given {A} a.

(** [interface SafeCfgOptions { environment?: string; strict?: boolean }] *)
Record SafeCfgOptions := {
  environment : field string;
  strict : field bool
}.

(** [{}], the default of the constructor's second parameter. *)
Definition empty_options : SafeCfgOptions :=
  {| environment := Missing; strict := Missing |}.

(** The instance: its two private fields. The schema is kept as the
    reference it was given. *)
Record SafeCfg := {
  schema : val;
  options : SafeCfgOptions
}.

(** [interface ValidationResult { valid; errors: string[]; warnings: string[] }] *)
Record ValidationResult := {
  valid : bool;
  errors : list string;
  warnings : list string
}.

(** [a || b] on an environment variable: unset and the empty string are
    falsy. *)
Definition or_else (a : option string) (b : string) : string :=
  match a with
  | Some s => if String.eqb s "" then b else s
  | None => b
  end.

(** One property of [{ ...defaults, ...options }]: an own property of
    [options] wins, whatever its value. *)
Definition spread {A} (dflt over : field A) : field A :=
  match over with
  | Missing => dflt
  | _ => over
  end.

(** The constructor reads [process.env.NODE_ENV] once; an omitted second
    argument stands for [{}]. *)
Definition constructor (schema : val) (given : option SafeCfgOptions)
    (w : world) : SafeCfg :=
  let given := default empty_options given in
  {| schema := schema;
     options :=
       {| environment :=
            spread (Given (or_else (process_env w !! "NODE_ENV") "development"))
                   (environment given);
          strict := spread (Given false) (strict given) |} |}.

(** [this.options.environment === 'production'] *)
Definition is_production (this : SafeCfg) : bool :=
  match environment (options this) with
  | Given s => String.eqb s "production"
  | _ => false
  end.

Definition validateSchema (this : SafeCfg) (config : val) : M unit :=
  console_log "Validating schema...".

Definition debug_warning : string :=
  "Debug mode is enabled in production environment".

Definition validateForProduction (this : SafeCfg) (config : val)
    (warnings : val) : M unit :=
  let* debug := get_prop config "debug" in
  if strict_eq debug (VBool true)
  then array_push warnings (VStr debug_warning)
  else ret tt.

(** The object literal [{ valid, errors, warnings }]. *)
Definition result_object (valid errors warnings : val) : obj :=
  OObject (<["valid" := valid]> (<["errors" := errors]> (<["warnings" := warnings]> ∅))).

(** The [try] block of [load]; [errors] and [warnings] are the two local
    arrays. *)
Definition try_block (this : SafeCfg) (config : val) (errors warnings : loc)
    : M val :=
  validateSchema this config ;;
  (if is_production this
   then validateForProduction this config (VRef warnings)
   else ret tt) ;;
  let* len := get_prop (VRef errors) "length" in
  let* result :=
    alloc (result_object (VBool (strict_eq len (VNum 0)))
                         (VRef errors) (VRef warnings)) in
  ret (VRef result).

(** The [catch (error)] block. On this store whatever the [try] block
    throws is an [Error] of the engine, whose [message] is a string;
    [Full.catch_block] below takes any thrown value. *)
Definition catch_block (error : js_error) : M val :=
  let* errors :=
    alloc (OArray [VStr ("Validation failed: " +:+ err_message error)]) in
  let* warnings := alloc (OArray []) in
  let* result :=
    alloc (result_object (VBool false) (VRef errors) (VRef warnings)) in
  ret (VRef result).

Definition load_body (this : SafeCfg) (config : val) : M val :=
  let* errors := alloc (OArray []) in
  let* warnings := alloc (OArray []) in
  try_catch (try_block this config errors warnings) catch_block.

Definition load (this : SafeCfg) (config : val) (w : world)
    : promise val * world :=
  async (load_body this config) w.

Definition generateTypes (this : SafeCfg) : string :=
  "// Auto-generated types for SafeCfg
export interface Config {
  // Add your configuration types here
  [key: string]: any;
}".

(** The exception the [try] block of a call raises, if any: the same run
    with the handler taken away. *)
Definition raised (this : SafeCfg) (config : val) (w : world)
    : option js_error :=
  match (let* errors := alloc (OArray []) in
         let* warnings := alloc (OArray []) in
         try_block this config errors warnings) w with
  | (Throw e, _) => Some e
  | (Ok _, _) => None
  end.

(** *** Reading a result back from the heap *)

Definition as_string (v : val) : option string :=
  match v with
  | VStr s => Some s
  | _ => None
  end.

Definition read_strings (h : gmap loc obj) (v : val) : option (list string) :=
  match v with
  | VRef l =>
      match h !! l with
      | Some (OArray elems) => mapM as_string elems
      | _ => None
      end
  | _ => None
  end.

Definition read_result (h : gmap loc obj) (v : val) : option ValidationResult :=
  match v with
  | VRef l =>
      match h !! l with
      | Some (OObject props) =>
          match props !! "valid", props !! "errors", props !! "warnings" with
          | Some (VBool b), Some e, Some ws =>
              match read_strings h e, read_strings h ws with
              | Some es, Some wss =>
                  Some {| valid := b; errors := es; warnings := wss |}
              | _, _ => None
              end
          | _, _, _ => None
          end
      | _ => None
      end
  | _ => None
  end.

(** The own property names of the object a value refers to. *)
Definition own_keys (h : gmap loc obj) (v : val) : option (gset string) :=
  match v with
  | VRef l =>
      match h !! l with
      | Some (OObject props) => Some (dom props)
      | _ => None
      end
  | _ => None
  end.

(** Whether [config.debug === true], for a config that can be read. *)
Definition debug_enabled (h : gmap loc obj) (config : val) : bool :=
  match config with
  | VRef l =>
      match h !! l with
      | Some (OObject props) => strict_eq (default VUndefined (props !! "debug")) (VBool true)
      | _ => false
      end
  | _ => false
  end.

(** The failure of [config.debug], when there is one. *)
Definition read_failure (config : val) : option js_error :=
  match config with
  | VUndefined => Some (cannot_read "undefined" "debug")
  | VNull => Some (cannot_read "null" "debug")
  | _ => None
  end.

(** The result [load] is expected to build, as a function of the instance,
    the config and the heap at the call. *)
Definition expected (this : SafeCfg) (h : gmap loc obj) (config : val)
    : ValidationResult :=
  if is_production this then
    match read_failure config with
    | Some e =>
        {| valid := false;
           errors := ["Validation failed: " +:+ err_message e];
           warnings := [] |}
    | None =>
        {| valid := true; errors := [];
           warnings := if debug_enabled h config then [debug_warning] else [] |}
    end
  else {| valid := true; errors := []; warnings := [] |}.

(** The world once [validateSchema] has logged its line. *)
Definition logged (w : world) : world :=
  with_console (console w ++ ["Validating schema..."])%list w.

(** The heap once the production check has run. *)
Definition checked_heap (this : SafeCfg) (config : val) (lw : loc)
    (h : gmap loc obj) : gmap loc obj :=
  if is_production this && debug_enabled h config
  then <[lw := OArray [VStr debug_warning]]> h
  else h.

(** What a run of [load] establishes: the result it built, that the cells
    of the caller are as they were, one more line on the console, and the
    process environment as it was. *)
Definition load_post (this : SafeCfg) (config : val) (w : world)
    (r : loc) (w' : world) : Prop :=
  (read_result (heap w') (VRef r) = Some (expected this (heap w) config)
   ∧ own_keys (heap w') (VRef r) = Some ({["valid"; "errors"; "warnings"]} : gset string)
   ∧ heap w ⊆ heap w'
   ∧ heap w !! r = None)
  ∧ console w' = (console w ++ ["Validating schema..."])%list
  ∧ process_env w' = process_env w.

(** What a settled call hands to its caller, read back from the heap it
    left. *)
Definition settled_result (p : promise val * world) : option ValidationResult :=
  match p with
  | (Resolved v, w') => read_result (heap w') v
  | (Rejected _, _) => None
  end.

(** [v.k1.k2...], one property read after the other. *)
Fixpoint get_path (v : val) (path : list string) : M val :=
  match path with
  | [] => ret v
  | key :: rest => let* v' := get_prop v key in get_path v' rest
  end.

(** Two property values agree when they are the same primitive, or are
    both references (to whatever objects). *)
Definition same_shallow (v1 v2 : val) : Prop :=
  match v1, v2 with
  | VRef _, VRef _ => True
  | _, _ => v1 = v2
  end.

Definition same_cell (o1 o2 : option obj) : Prop :=
  match o1, o2 with
  | Some (OObject p1), Some (OObject p2) =>
      forall key, option_Forall2 same_shallow (p1 !! key) (p2 !! key)
  | Some (OArray a1), Some (OArray a2) => Forall2 same_shallow a1 a2
  | None, None => True
  | _, _ => False
  end.

(** Two configs are equal for a caller when they are the same primitive, or
    two objects with the same own property names and agreeing values. Two
    structurally equal objects, a config and a deep copy of it, are equal in
    this sense. *)
Definition same_config (h1 : gmap loc obj) (c1 : val)
    (h2 : gmap loc obj) (c2 : val) : Prop :=
  match c1, c2 with
  | VRef l1, VRef l2 => same_cell (h1 !! l1) (h2 !! l2)
  | _, _ => c1 = c2
  end.

(** A non-null object: a reference to a live plain object. *)
Definition is_object (h : gmap loc obj) (v : val) : Prop :=
  match v with
  | VRef l => exists props, h !! l = Some (OObject props)
  | _ => False
  end.

(** Does the warning text mention [what]? *)
Definition mentions (what text : string) : bool :=
  match String.index 0 what text with
  | Some _ => true
  | None => false
  end.

End Cfg.

(* ===================================================================== *)
(** ** The schema compiler and the dependency graph *)
(* ===================================================================== *)

(** [src/types.ts] declares [SchemaNode], [SchemaDefinition],
    [CompiledPath], [CompiledSchema] and the interface [DependencyGraph];
    the records below follow those declarations. The functions behind them
    are not in the sources and are modelled from the specification. *)
Module Compiler.

(** Plain configuration data, as a tree. *)
#[warnings="-register-all"]
Inductive json :=
| JNull
| JBool (b : bool)
| JNum (n : Z)
| JStr (s : string)
| JArr (items : list json)
| JObj (fields : list (string * json)).

(** ['string' | 'number' | 'boolean' | 'array' | 'object'] *)
Inductive field_type := TString | TNumber | TBoolean | TArray | TObject.

(** [interface SchemaNode], with the attributes that the compiler, the
    dependency graph and the masked view read. *)
Record SchemaNode := {
  type : option field_type;
  required : bool;
  default_value : option json;
  env : option string;
  secret : bool;
  dependsOn : list string;
  conflictsWith : list string;
  transform : option (json -> json)
}.

(** [type SchemaDefinition = { [key: string]: SchemaNode | SchemaDefinition }] *)
#[warnings="-register-all"]
Inductive SchemaEntry :=
| Leaf (n : SchemaNode)
| Nested (d : list (string * SchemaEntry)).

Abbreviation SchemaDefinition := (list (string * SchemaEntry)).

(** [interface CompiledPath] *)
Record CompiledPath := {
  path : string;
  resolved_type : option field_type;
  defaultValue : option json;
  isSecret : bool;
  envVar : option string;
  is_required : bool;
  requires : list string;
  conflicts : list string
}.

Inductive dependency_type := Requires | Conflicts.

#[export] Instance dependency_type_eq_dec : EqDecision dependency_type.
Proof. solve_decision. Defined.

Record Edge := {
  edge_from : string;
  edge_to : string;
  edge_type : dependency_type
}.

#[export] Instance Edge_eq_dec : EqDecision Edge.
Proof. solve_decision. Defined.

(** [interface DependencyGraph]: the state behind it is the list of edges,
    in insertion order. *)
Record DependencyGraph := { edges : list Edge }.

Definition empty_graph : DependencyGraph := {| edges := [] |}.

Definition mk_edge (from to : string) (kind : dependency_type) : Edge :=
  {| edge_from := from; edge_to := to; edge_type := kind |}.

(** Modelled from the spec: the class behind [DependencyGraph.addDependency]
    is missing; inserting an edge that is already there changes nothing. *)
Definition addDependency (g : DependencyGraph) (from to : string)
    (kind : dependency_type) : DependencyGraph :=
  let e := mk_edge from to kind in
  if decide (e ∈ edges g) then g else {| edges := edges g ++ [e] |}.

Definition targets (g : DependencyGraph) (kind : dependency_type)
    (p : string) : list string :=
  edge_to <$> filter (λ e, edge_from e = p ∧ edge_type e = kind) (edges g).

(** Modelled from the spec: [getDependencies] and [getConflicts] list the
    declared targets of a path. *)
Definition getDependencies (g : DependencyGraph) (p : string) : list string :=
  targets g Requires p.

Definition getConflicts (g : DependencyGraph) (p : string) : list string :=
  targets g Conflicts p.

(** The paths that take part in a [requires] edge. *)
Definition requires_nodes (g : DependencyGraph) : list string :=
  e ← filter (λ e, edge_type e = Requires) (edges g); [edge_from e; edge_to e].

(** The outcome of a traversal: a path found on the recursion stack again,
    or the paths that are finished (black). *)
Inductive traversal :=
| Cycle (member : string)
| Done (black : list string).

(** Modelled from the spec: the loop of the traversal over the
    dependencies of a path, stopping at the first cycle. *)
Fixpoint visit_all (visit : list string -> string -> traversal)
    (black : list string) (ps : list string) : traversal :=
  match ps with
  | [] => Done black
  | p :: rest =>
      match visit black p with
      | Cycle m => Cycle m
      | Done black' => visit_all visit black' rest
      end
  end.

(** Modelled from the spec: the depth-first traversal of the [requires]
    subgraph with gray/black marking. [gray] is the recursion stack, [black]
    the finished paths; [fuel] bounds the depth of the recursion. *)
Fixpoint visit (fuel : nat) (g : DependencyGraph) (gray : list string)
    (black : list string) (p : string) : traversal :=
  match fuel with
  | O => Done black
  | S fuel' =>
      if decide (p ∈ gray) then Cycle p
      else if decide (p ∈ black) then Done black
      else
        match visit_all (visit fuel' g (p :: gray)) black (getDependencies g p) with
        | Cycle m => Cycle m
        | Done black' => Done (p :: black')
        end
  end.

(** Modelled from the spec: the traversal is started from every path of
    the graph; the recursion is never deeper than the number of paths. *)
Definition find_cycle (g : DependencyGraph) : option string :=
  let nodes := requires_nodes g in
  match visit_all (visit (S (length nodes)) g []) [] nodes with
  | Cycle m => Some m
  | Done _ => None
  end.

(** Modelled from the spec: [hasCircularDependency] is true iff the
    traversal meets a path of the recursion stack again. *)
Definition hasCircularDependency (g : DependencyGraph) : bool :=
  bool_decide (is_Some (find_cycle g)).

(** *** What the traversal maintains *)

(** A [requires] edge of the graph. *)
Definition edge (g : DependencyGraph) (a b : string) : Prop :=
  b ∈ getDependencies g a.

(** The recursion stack is a path of the graph, innermost call first. *)
Inductive stack (g : DependencyGraph) : list string -> Prop :=
| stack_nil : stack g []
| stack_one p : stack g [p]
| stack_cons p q l : edge g q p -> stack g (q :: l) -> stack g (p :: q :: l).

(** [p] is visited from the top of the stack. *)
Definition enters (g : DependencyGraph) (gray : list string) (p : string) : Prop :=
  match gray with
  | [] => True
  | q :: _ => edge g q p
  end.

(** Finished paths, last finished first: every path of the list has all its
    dependencies further down. *)
Inductive finished (g : DependencyGraph) : list string -> Prop :=
| finished_nil : finished g []
| finished_cons p l :
    p ∉ l -> (forall q, edge g p q -> q ∈ l) -> finished g l ->
    finished g (p :: l).

(** What a visit establishes, given the stack it runs under and the paths
    finished before it. *)
Definition visited (g : DependencyGraph) (gray black ps : list string)
    (t : traversal) : Prop :=
  match t with
  | Cycle m => tc (edge g) m m
  | Done black' =>
      finished g black'
      ∧ (forall p, p ∈ ps -> p ∈ black')
      ∧ (forall p, p ∈ black -> p ∈ black')
      ∧ (forall p, p ∈ black' -> p ∈ black ∨ p ∉ gray)
  end.

(** *** Compilation *)

(** Modelled from the spec: a nested key is appended to the path of its
    container, dot-joined. *)
Definition join_path (prefix key : string) : string :=
  if String.eqb prefix "" then key else prefix +:+ "." +:+ key.

Definition compile_leaf (p : string) (n : SchemaNode) : CompiledPath :=
  {| path := p;
     resolved_type := type n;
     defaultValue := default_value n;
     isSecret := secret n;
     envVar := env n;
     is_required := required n;
     requires := dependsOn n;
     conflicts := conflictsWith n |}.

(** Modelled from the spec: the walk of the schema compiler, one
    [CompiledPath] for each leaf, in declaration order. *)
Fixpoint flatten_entry (p : string) (e : SchemaEntry) : list CompiledPath :=
  match e with
  | Leaf n => [compile_leaf p n]
  | Nested d =>
      (fix flatten_fields (d : list (string * SchemaEntry)) : list CompiledPath :=
         match d with
         | [] => []
         | (key, e') :: rest =>
             (flatten_entry (join_path p key) e' ++ flatten_fields rest)%list
         end) d
  end.

Definition flatten (schema : SchemaDefinition) : list CompiledPath :=
  flatten_entry "" (Nested schema).

(** Modelled from the spec: the graph is filled from every [dependsOn] and
    [conflictsWith] entry of a compiled path. *)
Definition add_path_edges (cp : CompiledPath) (g : DependencyGraph)
    : DependencyGraph :=
  let g1 := foldl (λ g to, addDependency g (path cp) to Requires) g (requires cp) in
  foldl (λ g to, addDependency g (path cp) to Conflicts) g1 (conflicts cp).

Definition build_graph (paths : list CompiledPath) : DependencyGraph :=
  foldl (λ g cp, add_path_edges cp g) empty_graph paths.

(** The edges a compiled path declares. *)
Definition declares (cp : CompiledPath) (e : Edge) : Prop :=
  (∃ b, b ∈ requires cp ∧ e = mk_edge (path cp) b Requires)
  ∨ (∃ b, b ∈ conflicts cp ∧ e = mk_edge (path cp) b Conflicts).

(** [interface CompiledSchema], without its metadata. *)
Record CompiledSchema := {
  paths : list CompiledPath;
  dependencies : DependencyGraph
}.

Record SchemaError := {
  code : string;
  cycle_member : string
}.

Definition CIRCULAR_DEPENDENCY : string := "CIRCULAR_DEPENDENCY".

(** Modelled from the spec: [compile] is missing from the sources. It
    flattens the schema, fills the dependency graph from every [dependsOn]
    and [conflictsWith] entry, and fails on a [requires] cycle, naming the
    member the traversal found. The failures of malformed nodes (unknown
    type, bounds on the wrong type, duplicate paths, depth) are left out:
    the specification does not rank them against the cycle failure. *)
Definition compile (schema : SchemaDefinition) : SchemaError + CompiledSchema :=
  let paths := flatten schema in
  let g := build_graph paths in
  match find_cycle g with
  | Some m => inl {| code := CIRCULAR_DEPENDENCY; cycle_member := m |}
  | None => inr {| paths := paths; dependencies := g |}
  end.

(** A [requires] edge declared by the schema: the compiled path [a] lists
    [b] in its [dependsOn]. *)
Definition depends (schema : SchemaDefinition) (a b : string) : Prop :=
  ∃ cp, cp ∈ flatten schema ∧ path cp = a ∧ b ∈ requires cp.

End Compiler.

(* ===================================================================== *)
(** ** The loaded configuration and its views *)
(* ===================================================================== *)

(** [src/types.ts] declares [ConfigResult]; what fills it is not in the
    sources and is modelled from the specification. *)
Module Engine.
Import Compiler.

(** The first value stored under [key] in an object or a schema. *)
Fixpoint field_of {A} (key : string) (fields : list (string * A)) : option A :=
  match fields with
  | [] => None
  | (k, v) :: rest => if String.eqb k key then Some v else field_of key rest
  end.



(** Modelled from the spec: the [transform] of a leaf is applied to the
    value of its field. *)
Definition transformed (n : SchemaNode) (v : json) : json :=
  match transform n with
  | Some f => f v
  | None => v
  end.

(** Modelled from the spec: the transform layer is missing from the
    sources. After the merge and before validation, every field that a leaf
    with a [transform] names has the transform applied to its value. *)
Fixpoint apply_transforms (d : SchemaDefinition) (c : json) : json :=
  match c with
  | JObj fields =>
      JObj (map (λ '(key, v),
                  (key, match field_of key d with
                        | Some (Leaf n) => transformed n v
                        | Some (Nested d') => apply_transforms d' v
                        | None => v
                        end)) fields)
  | _ => c
  end.

(** Modelled from the spec: what a leaf whose field is absent takes. The
    variable its [env] names is looked up in the injected provider first,
    its [default] comes after; a variable gives the string it holds. *)
Definition supplied (provider : gmap string string) (n : SchemaNode)
    : option json :=
  match env n ≫= (provider !!.) with
  | Some s => Some (JStr s)
  | None => default_value n
  end.

(** Modelled from the spec: what an absent field takes, a container taking
    the object of what its own fields take, and nothing when none of them
    takes anything. A key counts once, at its first entry. *)
Fixpoint supplied_entry (provider : gmap string string) (e : SchemaEntry)
    : option json :=
  match e with
  | Leaf n => supplied provider n
  | Nested d =>
      let missing :=
        fix missing (d : list (string * SchemaEntry)) (seen : list string)
            : list (string * json) :=
          match d with
          | [] => []
          | (key, e') :: rest =>
              if bool_decide (key ∈ seen) then missing rest seen
              else match supplied_entry provider e' with
                   | Some x => (key, x) :: missing rest (key :: seen)
                   | None => missing rest (key :: seen)
                   end
          end in
      match missing d [] with
      | [] => None
      | fields => Some (JObj fields)
      end
  end.

(** The loop of [supplied_entry] on its own: the fields of [d] that are not
    among the keys [seen], with what they take. *)
Fixpoint missing (provider : gmap string string) (d : SchemaDefinition)
    (seen : list string) : list (string * json) :=
  match d with
  | [] => []
  | (key, e) :: rest =>
      if bool_decide (key ∈ seen) then missing provider rest seen
      else match supplied_entry provider e with
           | Some x => (key, x) :: missing provider rest (key :: seen)
           | None => missing provider rest (key :: seen)
           end
  end.

(** Modelled from the spec: the substitution step of the validation run is
    missing from the sources. A value that is there is kept (an explicit
    value comes before the binding and the default); an absent field takes
    its environment binding or else its default, and is added after the
    fields that are there. *)
Fixpoint fill (provider : gmap string string) (d : SchemaDefinition)
    (c : json) : json :=
  match c with
  | JObj fields =>
      JObj (map (λ '(key, v),
                  (key, match field_of key d with
                        | Some (Nested d') => fill provider d' v
                        | _ => v
                        end)) fields
            ++ missing provider d (map fst fields))
  | _ => c
  end.

(** Modelled from the spec: the fixed redaction marker; the specification
    does not give its text. *)
Definition redaction_marker : json := JStr "[REDACTED]".

(** Modelled from the spec: the masked view is missing from the sources.
    Every field whose leaf is marked [secret: true] is replaced by the
    marker. *)
Fixpoint mask (d : SchemaDefinition) (c : json) : json :=
  match c with
  | JObj fields =>
      JObj (map (λ '(key, v),
                  (key, match field_of key d with
                        | Some (Leaf n) => if secret n then redaction_marker else v
                        | Some (Nested d') => mask d' v
                        | None => v
                        end)) fields)
  | _ => c
  end.



(** [interface ConfigResult], its three data views. *)
Record ConfigResult := {
  config : json;
  safeConfig : json;
  rawConfig : json
}.

(** Modelled from the spec: the public [load] behind [ConfigResult] is
    missing from the sources. The schema is compiled first; the transforms
    run on the data as it came, and the substitution of bindings and
    defaults comes after, with the provider of the environment variables
    passed in. [config] is the outcome, [safeConfig] its masked view,
    [rawConfig] the data as it came. *)
Definition load (provider : gmap string string) (schema : SchemaDefinition)
    (raw : json) : SchemaError + ConfigResult :=
  match compile schema with
  | inl e => inl e
  | inr _ =>
      let c := fill provider schema (apply_transforms schema raw) in
      inr {| config := c; safeConfig := mask schema c; rawConfig := raw |}
  end.

End Engine.

(* ===================================================================== *)
(** ** The objects of the documented examples *)
(* ===================================================================== *)

Module Examples.
Import Js Cfg Compiler.

Definition object (props : list (string * val)) : obj :=
  OObject (list_to_map props).

(** The heap holds
    - at 1, the schema
      [{db: {host: {type: 'string', required: true},
             port: {type: 'number', default: 5432}}}] (cells 1 to 4);
    - at 5, the config [{db: {}}] (cells 5 and 6);
    - at 7, the config [{db: {host: 'localhost'}}] (cells 7 and 8);
    - at 9, the schema [{debug: {type: 'boolean'}}] (cells 9 and 10);
    - at 11, the config [{debug: true}]. *)
Definition example_heap : gmap loc obj :=
  list_to_map
    [ (1%positive, object [("db", VRef 2)]);
      (2%positive, object [("host", VRef 3); ("port", VRef 4)]);
      (3%positive, object [("type", VStr "string"); ("required", VBool true)]);
      (4%positive, object [("type", VStr "number"); ("default", VNum 5432)]);
      (5%positive, object [("db", VRef 6)]);
      (6%positive, object []);
      (7%positive, object [("db", VRef 8)]);
      (8%positive, object [("host", VStr "localhost")]);
      (9%positive, object [("debug", VRef 10)]);
      (10%positive, object [("type", VStr "boolean")]);
      (11%positive, object [("debug", VBool true)]) ].

Definition db_schema : val := VRef 1.
Definition db_empty_config : val := VRef 5.
Definition db_host_config : val := VRef 7.
Definition debug_schema : val := VRef 9.
Definition debug_config : val := VRef 11.

(** A process with the given environment variables and a silent console. *)
Definition example_world (env : gmap string string) : world :=
  {| heap := example_heap; console := []; process_env := env |}.

Definition in_environment (name : string) : SafeCfgOptions :=
  {| environment := Given name; strict := Missing |}.

(** Leaves of the schemas below. *)
Definition plain_leaf (t : field_type) : SchemaNode :=
  {| type := Some t; required := false; default_value := None; env := None;
     secret := false; dependsOn := []; conflictsWith := []; transform := None |}.

Definition secret_leaf (t : field_type) : SchemaNode :=
  {| type := Some t; required := true; default_value := None; env := None;
     secret := true; dependsOn := []; conflictsWith := []; transform := None |}.

Definition depending_leaf (t : field_type) (on : list string) : SchemaNode :=
  {| type := Some t; required := false; default_value := None; env := None;
     secret := false; dependsOn := on; conflictsWith := []; transform := None |}.

Definition conflicting_leaf (t : field_type) (against : list string)
    : SchemaNode :=
  {| type := Some t; required := false; default_value := None; env := None;
     secret := false; dependsOn := []; conflictsWith := against;
     transform := None |}.

(** [{db: {host: {type: 'string'}, password: {type: 'string', secret: true}}}] *)
Definition password_schema : SchemaDefinition :=
  [("db", Nested [("host", Leaf (plain_leaf TString));
                  ("password", Leaf (secret_leaf TString))])].

(** [{db: {host: 'localhost', password: 'hunter2'}}] *)
Definition password_config : json :=
  JObj [("db", JObj [("host", JStr "localhost"); ("password", JStr "hunter2")])].

(** [{a: {type: 'string', dependsOn: ['b.c']},
      b: {c: {type: 'string', dependsOn: ['a']}}}] *)
Definition cyclic_schema : SchemaDefinition :=
  [("a", Leaf (depending_leaf TString ["b.c"]));
   ("b", Nested [("c", Leaf (depending_leaf TString ["a"]))])].

(** [{a: {type: 'number', conflictsWith: ['b']},
      b: {type: 'number', conflictsWith: ['a']}}] *)
Definition conflicting_schema : SchemaDefinition :=
  [("a", Leaf (conflicting_leaf TNumber ["b"]));
   ("b", Leaf (conflicting_leaf TNumber ["a"]))].

End Examples.

(** Schemas with a default and with a bound variable, for the views. *)
Module EngineExamples.
Import Compiler Engine Examples.

(** A leaf with a default and one bound to an environment variable. *)
Definition default_leaf (t : field_type) (dflt : json) : SchemaNode :=
  {| type := Some t; required := false; default_value := Some dflt;
     env := None; secret := false; dependsOn := []; conflictsWith := [];
     transform := None |}.

Definition bound_secret_leaf (t : field_type) (var : string) : SchemaNode :=
  {| type := Some t; required := true; default_value := None;
     env := Some var; secret := true; dependsOn := []; conflictsWith := [];
     transform := None |}.

(** [{db: {host: {type: 'string', required: true},
           port: {type: 'number', default: 5432},
           password: {type: 'string', secret: true, env: 'DB_PASSWORD'}}}] *)
Definition bound_schema : SchemaDefinition :=
  [("db", Nested [("host", Leaf (plain_leaf TString));
                  ("port", Leaf (default_leaf TNumber (JNum 5432)));
                  ("password", Leaf (bound_secret_leaf TString "DB_PASSWORD"))])].

(** [{db: {host: 'localhost'}}] *)
Definition host_config : json :=
  JObj [("db", JObj [("host", JStr "localhost")])].

(** The environment [DB_PASSWORD=hunter2]. *)
Definition password_env : gmap string string := {["DB_PASSWORD" := "hunter2"]}.

End EngineExamples.


(* ===================================================================== *)
(** ** The validation errors and the error classes of [src/types.ts] *)
(* ===================================================================== *)

From stdpp Require Import pretty.

Module Types.

(** ['error' | 'fatal'] *)
Inductive error_severity := SeverityError | SeverityFatal.

(** [interface ValidationError]; [details] is a plain object. *)
Record ValidationError := {
  path : string;
  type : string;
  message : string;
  code : string;
  severity : error_severity;
  details : option (list (string * Compiler.json));
  suggestedFix : option string;
  source : option string
}.

(** What a [details] object of an error class holds under a key: plain
    data, or the list of validation errors. *)
Inductive detail :=
| DetailData (d : Compiler.json)
| DetailErrors (es : list ValidationError).

End Types.

Module Errors.
Import Js.

(** [class SafeCfgError extends Error]: the [name] and [message] of [Error],
    and the two fields the class adds. *)
Record SafeCfgError := {
  error : js_error;
  code : string;
  details : option (list (string * Types.detail))
}.

(** [super(message)]: a plain [Error]. *)
Definition Error (message : string) : js_error :=
  {| err_name := "Error"; err_message := message |}.

(** [this.name = name] *)
Definition set_name (name : string) (e : SafeCfgError) : SafeCfgError :=
  {| error := {| err_name := name; err_message := err_message (error e) |};
     code := code e;
     details := details e |}.

(** [new SafeCfgError(message, code = 'CONFIG_GUARD_ERROR', details?)]: the
    default of [code] stands in for an omitted (or [undefined]) argument
    only. *)
Definition new_SafeCfgError (message : string) (code : option string)
    (details : option (list (string * Types.detail))) : SafeCfgError :=
  set_name "SafeCfgError"
    {| error := Error message;
       code := default "CONFIG_GUARD_ERROR" code;
       details := details |}.

(** [class SafeCfgValidationError extends SafeCfgError] *)
Record SafeCfgValidationError := {
  validation_super : SafeCfgError;
  errors : list Types.ValidationError
}.

(** [a || b] on an optional string: [undefined] and the empty string are
    falsy. *)
Definition or_string (a : option string) (b : string) : string :=
  match a with
  | Some s => if String.eqb s "" then b else s
  | None => b
  end.

Definition new_SafeCfgValidationError (errors : list Types.ValidationError)
    (message : option string) : SafeCfgValidationError :=
  let super :=
    new_SafeCfgError
      (or_string message
         ("Configuration validation failed with " +:+ pretty (length errors)
            +:+ " error(s)"))
      (Some "VALIDATION_FAILED")
      (Some [("errors", Types.DetailErrors errors)]) in
  {| validation_super := set_name "SafeCfgValidationError" super;
     errors := errors |}.

(** The line feed of ['\n']. *)
Definition nl : string := String (ascii_of_nat 10) EmptyString.

(** Is a string truthy? *)
Definition truthy (s : option string) : bool :=
  match s with
  | Some s => negb (String.eqb s "")
  | None => false
  end.

(** What the callback of [forEach] pushes for the error at [index].
    [stringify] is [JSON.stringify(_, null, 2)] of the engine. *)
Definition pushed (stringify : list (string * Compiler.json) -> string)
    (index : nat) (error : Types.ValidationError) : list string :=
  [nl +:+ pretty (index + 1)%nat +:+ ". " +:+ Types.path error
      +:+ " [" +:+ Types.code error +:+ "]";
   "   Message: " +:+ Types.message error]
  ++ match Types.details error with
     | Some d => ["   Details: " +:+ stringify d]
     | None => []
     end
  ++ (if truthy (Types.suggestedFix error)
      then ["   Fix: " +:+ default "" (Types.suggestedFix error)]
      else []).

(** [errors.forEach((error, index) => ...)] over the array [lines]. *)
Fixpoint forEach (stringify : list (string * Compiler.json) -> string)
    (index : nat) (errors : list Types.ValidationError)
    (lines : list string) : list string :=
  match errors with
  | [] => lines
  | error :: rest =>
      forEach stringify (S index) rest (lines ++ pushed stringify index error)
  end.

(** The array [lines] when [prettyPrint] joins it. *)
Definition prettyPrint_lines (stringify : list (string * Compiler.json) -> string)
    (this : SafeCfgValidationError) : list string :=
  forEach stringify 0 (errors this)
    ["🔴 Configuration Validation Failed (" +:+ pretty (length (errors this))
       +:+ " errors)"].

Definition prettyPrint (stringify : list (string * Compiler.json) -> string)
    (this : SafeCfgValidationError) : string :=
  String.concat nl (prettyPrint_lines stringify this).

(** The heading line of [prettyPrint]. *)
Definition heading (this : SafeCfgValidationError) : string :=
  "🔴 Configuration Validation Failed (" +:+ pretty (length (errors this))
    +:+ " errors)".

(** An error with its empty [suggestedFix] taken away. *)
Definition without_empty_fix (e : Types.ValidationError) : Types.ValidationError :=
  {| Types.path := Types.path e;
     Types.type := Types.type e;
     Types.message := Types.message e;
     Types.code := Types.code e;
     Types.severity := Types.severity e;
     Types.details := Types.details e;
     Types.suggestedFix :=
       match Types.suggestedFix e with
       | Some s => if String.eqb s "" then None else Some s
       | None => None
       end;
     Types.source := Types.source e |}.

(** [class SourceLoadError extends SafeCfgError] *)
Record SourceLoadError := {
  source_super : SafeCfgError;
  source : string
}.

Definition new_SourceLoadError (source : string) (originalError : js_error)
    : SourceLoadError :=
  let super :=
    new_SafeCfgError
      ("Failed to load configuration from source: " +:+ source)
      (Some "SOURCE_LOAD_FAILED")
      (Some [("originalError",
              Types.DetailData (Compiler.JStr (err_message originalError)))]) in
  {| source_super := set_name "SourceLoadError" super;
     source := source |}.

End Errors.


(** Two validation errors and a printer of [details] for the examples. *)
Module ErrorExamples.
Import Types.

Definition host_missing : ValidationError :=
  {| path := "db.host"; type := "required"; message := "is required";
     code := "REQUIRED_FIELD_MISSING"; severity := SeverityFatal;
     details := Some []; suggestedFix := Some ""; source := None |}.

Definition port_mistyped : ValidationError :=
  {| path := "db.port"; type := "type"; message := "is not a number";
     code := "INVALID_TYPE"; severity := SeverityError;
     details := None; suggestedFix := Some "use 5432"; source := None |}.

Definition braces (d : list (string * Compiler.json)) : string := "{}".

End ErrorExamples.

(* ===================================================================== *)
(** ** [load] on objects with accessors *)
(* ===================================================================== *)

(** The store of [Js] holds data properties only, and there [load] always
    resolves. Here a property may also be an accessor: whatever runs when
    the property is read (a getter, own or inherited, or the trap of a
    proxy) and either returns a value or throws one. What is thrown may be
    any primitive, an [Error], or any other object, which is known by what
    the handler of [load] can make of it. Getters have no other effect on
    the store than their return or throw. *)
Module Full.
Import Js.

(** What a [throw] hands to the handler: a primitive, an [Error] with its
    string message, or another object. Of such an object the handler only
    evaluates the template [`${error.message}`]: that gives a text
    (['undefined'] when the object has no [message]), or throws in turn
    (a [message] getter that throws, a [message] that has no string
    conversion). *)
Inductive thrown :=
| ThrownUndefined
| ThrownNull
| ThrownBool (b : bool)
| ThrownNum (n : Z)
| ThrownStr (s : string)
| ThrownError (e : js_error)
| ThrownObject (text : string)
| ThrownFailing (t : thrown).

(** What running a getter gives. *)
Inductive getter :=
| Returns (v : val)
| Throws (t : thrown).

Inductive property :=
| Data (v : val)
| Accessor (get : getter).

Inductive obj :=
| OObject (props : gmap string property)
| OArray (elems : list val).

Record world := {
  heap : gmap loc obj;
  console : list string;
  process_env : gmap string string
}.

Definition with_heap (h : gmap loc obj) (w : world) : world :=
  {| heap := h; console := console w; process_env := process_env w |}.

Definition with_console (c : list string) (w : world) : world :=
  {| heap := heap w; console := c; process_env := process_env w |}.

Inductive outcome (A : Type) :=
| Ok (a : A)
| Throw (t : thrown).
Arguments Ok {A} a.
Arguments Throw {A} t.

Definition M (A : Type) : Type := world -> outcome A * world.

Definition ret {A} (a : A) : M A := fun w => (Ok a, w).

Definition bind {A B} (m : M A) (k : A -> M B) : M B :=
  fun w =>
    match m w with
    | (Ok a, w') => k a w'
    | (Throw t, w') => (Throw t, w')
    end.

(** [try { body } catch (error) { handler }] *)
Definition try_catch {A} (body : M A) (handler : thrown -> M A) : M A :=
  fun w =>
    match body w with
    | (Ok a, w') => (Ok a, w')
    | (Throw t, w') => handler t w'
    end.

Declare Scope full_scope.
Delimit Scope full_scope with full.
Notation "'let*' x ':=' c 'in' k" := (bind c (fun x => k))
  (at level 10, x name, c at level 100, k at level 200) : full_scope.
Notation "c ';;' k" := (bind c (fun _ => k))
  (at level 100, k at level 200, right associativity) : full_scope.
Local Open Scope full_scope.

Inductive promise (A : Type) :=
| Resolved (a : A)
| Rejected (t : thrown).
Arguments Resolved {A} a.
Arguments Rejected {A} t.

Definition async {A} (body : M A) (w : world) : promise A * world :=
  match body w with
  | (Ok a, w') => (Resolved a, w')
  | (Throw t, w') => (Rejected t, w')
  end.

Definition fresh_loc (h : gmap loc obj) : loc := fresh (dom h).

Definition alloc (o : obj) : M loc :=
  fun w =>
    let l := fresh_loc (heap w) in
    (Ok l, with_heap (<[l := o]> (heap w)) w).

Definition console_log (s : string) : M unit :=
  fun w => (Ok tt, with_console (console w ++ [s]) w).

(** A property of an object: the value of a data property, what the getter
    of an accessor gives, [undefined] when the key is not there. *)
Definition read_property (p : option property) : outcome val :=
  match p with
  | Some (Data v) => Ok v
  | Some (Accessor (Returns v)) => Ok v
  | Some (Accessor (Throws t)) => Throw t
  | None => Ok VUndefined
  end.

(** What [v[key]] (or [v.key]) gives in a heap, as [Js.get_prop] but for the
    accessors. *)
Definition lookup_prop (h : gmap loc obj) (v : val) (key : string)
    : outcome val :=
  match v with
  | VUndefined => Throw (ThrownError (cannot_read "undefined" key))
  | VNull => Throw (ThrownError (cannot_read "null" key))
  | VBool _ | VNum _ => Ok VUndefined
  | VStr s =>
      if String.eqb key "length" then Ok (VNum (Z.of_nat (String.length s)))
      else match array_index key with
           | Some i =>
               match String.get i s with
               | Some c => Ok (VStr (String c EmptyString))
               | None => Ok VUndefined
               end
           | None => Ok VUndefined
           end
  | VRef l =>
      match h !! l with
      | Some (OObject props) => read_property (props !! key)
      | Some (OArray elems) =>
          if String.eqb key "length" then Ok (VNum (Z.of_nat (length elems)))
          else match array_index key with
               | Some i => Ok (default VUndefined (elems !! i))
               | None => Ok VUndefined
               end
      | None => Ok VUndefined
      end
  end.

(** The read as a step: it leaves the world as it is. *)
Definition get_prop (v : val) (key : string) : M val :=
  fun w => (lookup_prop (heap w) v key, w).

(** [callee.push(x)], [callee] being the text of the expression pushed to. *)
Definition array_push (callee : string) (a : val) (x : val) : M unit :=
  fun w =>
    match a with
    | VRef l =>
        match heap w !! l with
        | Some (OArray elems) =>
            (Ok tt, with_heap (<[l := OArray (elems ++ [x])]> (heap w)) w)
        | _ => (Throw (ThrownError (TypeError (callee +:+ ".push is not a function"))), w)
        end
    | VUndefined => (Throw (ThrownError (cannot_read "undefined" "push")), w)
    | VNull => (Throw (ThrownError (cannot_read "null" "push")), w)
    | _ => (Throw (ThrownError (TypeError (callee +:+ ".push is not a function"))), w)
    end.

(** [error.message] on what was caught, as the template of the handler
    takes it: a [TypeError] on [null] and [undefined], [undefined] on the
    other primitives, the message of an [Error], and for another object
    what its template evaluates to. *)
Definition message_of (error : thrown) : outcome (option string) :=
  match error with
  | ThrownUndefined => Throw (ThrownError (cannot_read "undefined" "message"))
  | ThrownNull => Throw (ThrownError (cannot_read "null" "message"))
  | ThrownBool _ | ThrownNum _ | ThrownStr _ => Ok None
  | ThrownError e => Ok (Some (err_message e))
  | ThrownObject text => Ok (Some text)
  | ThrownFailing t => Throw t
  end.

(** The values the handler cannot take the message of. *)
Definition unreadable (error : thrown) : Prop :=
  error = ThrownNull ∨ error = ThrownUndefined
  ∨ ∃ t, error = ThrownFailing t.

(** A pure outcome as a step. *)
Definition lift {A} (r : outcome A) : M A := fun w => (r, w).

(** [`${m}`] for a message that is a string or [undefined]. *)
Definition template (m : option string) : string := default "undefined" m.

(** *** The class, over this store *)

Definition validateSchema (this : Cfg.SafeCfg) (config : val) : M unit :=
  console_log "Validating schema...".

Definition validateForProduction (this : Cfg.SafeCfg) (config : val)
    (warnings : val) : M unit :=
  let* debug := get_prop config "debug" in
  if strict_eq debug (VBool true)
  then array_push "warnings" warnings (VStr Cfg.debug_warning)
  else ret tt.

Definition result_object (valid errors warnings : val) : obj :=
  OObject (<["valid" := Data valid]>
            (<["errors" := Data errors]> (<["warnings" := Data warnings]> ∅))).

Definition try_block (this : Cfg.SafeCfg) (config : val) (errors warnings : loc)
    : M val :=
  validateSchema this config ;;
  (if Cfg.is_production this
   then validateForProduction this config (VRef warnings)
   else ret tt) ;;
  let* len := get_prop (VRef errors) "length" in
  let* result :=
    alloc (result_object (VBool (strict_eq len (VNum 0)))
                         (VRef errors) (VRef warnings)) in
  ret (VRef result).

(** The [catch (error)] block: the array literal reads [error.message]
    before anything is built. *)
Definition catch_block (error : thrown) : M val :=
  let* message := lift (message_of error) in
  let* errors :=
    alloc (OArray [VStr ("Validation failed: " +:+ template message)]) in
  let* warnings := alloc (OArray []) in
  let* result :=
    alloc (result_object (VBool false) (VRef errors) (VRef warnings)) in
  ret (VRef result).

Definition load_body (this : Cfg.SafeCfg) (config : val) : M val :=
  let* errors := alloc (OArray []) in
  let* warnings := alloc (OArray []) in
  try_catch (try_block this config errors warnings) catch_block.

Definition load (this : Cfg.SafeCfg) (config : val) (w : world)
    : promise val * world :=
  async (load_body this config) w.

(** What the [try] block of a call throws, if anything. *)
Definition raised (this : Cfg.SafeCfg) (config : val) (w : world)
    : option thrown :=
  match (let* errors := alloc (OArray []) in
         let* warnings := alloc (OArray []) in
         try_block this config errors warnings) w with
  | (Throw t, _) => Some t
  | (Ok _, _) => None
  end.

(** *** Reading a result back *)

Definition read_strings (h : gmap loc obj) (v : val) : option (list string) :=
  match v with
  | VRef l =>
      match h !! l with
      | Some (OArray elems) => mapM Cfg.as_string elems
      | _ => None
      end
  | _ => None
  end.

Definition read_result (h : gmap loc obj) (v : val)
    : option Cfg.ValidationResult :=
  match v with
  | VRef l =>
      match h !! l with
      | Some (OObject props) =>
          match props !! "valid", props !! "errors", props !! "warnings" with
          | Some (Data (VBool b)), Some (Data e), Some (Data ws) =>
              match read_strings h e, read_strings h ws with
              | Some es, Some wss =>
                  Some {| Cfg.valid := b; Cfg.errors := es; Cfg.warnings := wss |}
              | _, _ => None
              end
          | _, _, _ => None
          end
      | _ => None
      end
  | _ => None
  end.

Definition own_keys (h : gmap loc obj) (v : val) : option (gset string) :=
  match v with
  | VRef l =>
      match h !! l with
      | Some (OObject props) => Some (dom props)
      | _ => None
      end
  | _ => None
  end.

Definition is_object (h : gmap loc obj) (v : val) : Prop :=
  match v with
  | VRef l => exists props, h !! l = Some (OObject props)
  | _ => False
  end.

(** How a call settles, as the caller sees it. *)
Inductive settlement :=
| Settles (r : Cfg.ValidationResult)
| Rejects (t : thrown).

(** The settlement [load] is expected to reach, from the instance and from
    what the read of [config.debug] gives in the heap at the call. *)
Definition expected (this : Cfg.SafeCfg) (h : gmap loc obj) (config : val)
    : settlement :=
  if Cfg.is_production this then
    match lookup_prop h config "debug" with
    | Ok debug =>
        Settles {| Cfg.valid := true; Cfg.errors := [];
                   Cfg.warnings := if strict_eq debug (VBool true)
                                   then [Cfg.debug_warning] else [] |}
    | Throw t =>
        match message_of t with
        | Ok message =>
            Settles {| Cfg.valid := false;
                       Cfg.errors := ["Validation failed: " +:+ template message];
                       Cfg.warnings := [] |}
        | Throw t' => Rejects t'
        end
    end
  else Settles {| Cfg.valid := true; Cfg.errors := []; Cfg.warnings := [] |}.

(** The world once [validateSchema] has logged its line. *)
Definition logged (w : world) : world :=
  with_console (console w ++ ["Validating schema..."])%list w.

(** The settlement of a call, read back. *)
Definition settled (p : promise val * world) : option settlement :=
  match p with
  | (Resolved v, w') => Settles <$> read_result (heap w') v
  | (Rejected t, _) => Some (Rejects t)
  end.

(** The heap once the production check has run and returned. *)
Definition checked_heap (this : Cfg.SafeCfg) (config : val) (lw : loc)
    (h : gmap loc obj) : gmap loc obj :=
  if Cfg.is_production this
  then match lookup_prop h config "debug" with
       | Ok debug =>
           if strict_eq debug (VBool true)
           then <[lw := OArray [VStr Cfg.debug_warning]]> h
           else h
       | Throw _ => h
       end
  else h.

(** What the production check throws, if it runs and throws. *)
Definition check_throws (this : Cfg.SafeCfg) (config : val)
    (h : gmap loc obj) : option thrown :=
  if Cfg.is_production this
  then match lookup_prop h config "debug" with
       | Ok _ => None
       | Throw t => Some t
       end
  else None.

(** What a call that resolves establishes. *)
Definition resolved_post (w : world) (res : Cfg.ValidationResult) (r : loc)
    (w' : world) : Prop :=
  (read_result (heap w') (VRef r) = Some res
   ∧ own_keys (heap w') (VRef r) = Some ({["valid"; "errors"; "warnings"]} : gset string)
   ∧ heap w ⊆ heap w'
   ∧ heap w !! r = None)
  ∧ console w' = (console w ++ ["Validating schema..."])%list
  ∧ process_env w' = process_env w.

(** What a call that rejects establishes. *)
Definition rejected_post (w w' : world) : Prop :=
  heap w ⊆ heap w'
  ∧ console w' = (console w ++ ["Validating schema..."])%list
  ∧ process_env w' = process_env w.

(** The two local arrays and the heap that holds them. *)
Definition errors_loc (w : world) : loc := fresh_loc (heap w).
Definition warnings_loc (w : world) : loc :=
  fresh_loc (<[errors_loc w := OArray []]> (heap w)).
Definition arrays_heap (w : world) : gmap loc obj :=
  <[warnings_loc w := OArray []]> (<[errors_loc w := OArray []]> (heap w)).

(** The value at a path of keys, read property by property. *)
Fixpoint lookup_path (h : gmap loc obj) (v : val) (path : list string)
    : outcome val :=
  match path with
  | [] => Ok v
  | key :: rest =>
      match lookup_prop h v key with
      | Ok v' => lookup_path h v' rest
      | Throw t => Throw t
      end
  end.

(** The field at [path] is absent from the object [v]: along the path the
    data properties lead from object to object, up to an object that has no
    property of the next name. *)
Fixpoint absent (h : gmap loc obj) (v : val) (path : list string) : bool :=
  match path with
  | [] => false
  | key :: rest =>
      match v with
      | VRef l =>
          match h !! l with
          | Some (OObject props) =>
              match props !! key with
              | None => true
              | Some (Data v') => absent h v' rest
              | Some (Accessor _) => false
              end
          | _ => false
          end
      | _ => false
      end
  end.

(** *** The plain store inside this one *)

Definition lift_obj (o : Js.obj) : obj :=
  match o with
  | Js.OObject props => OObject (Data <$> props)
  | Js.OArray elems => OArray elems
  end.

Definition lift_world (w : Js.world) : world :=
  {| heap := lift_obj <$> Js.heap w;
     console := Js.console w;
     process_env := Js.process_env w |}.

Definition lift_outcome {A} (r : Js.outcome A * Js.world) : outcome A * world :=
  match r with
  | (Js.Ok a, w') => (Ok a, lift_world w')
  | (Js.Throw e, w') => (Throw (ThrownError e), lift_world w')
  end.

Definition lift_promise {A} (r : Js.promise A * Js.world) : promise A * world :=
  match r with
  | (Js.Resolved a, w') => (Resolved a, lift_world w')
  | (Js.Rejected e, w') => (Rejected (ThrownError e), lift_world w')
  end.

(** A step of the plain model and a step of this one that do the same from
    the world [w]. *)
Definition sim {A} (w : Js.world) (m : Js.M A) (m' : M A) : Prop :=
  m' (lift_world w) = lift_outcome (m w).

End Full.

Module FullExamples.
Import Js Cfg Full Examples.

Definition boom : js_error := {| err_name := "Error"; err_message := "boom" |}.

(** The example heap of the plain store, and after it
    - at 12, [{ get debug() { throw null } }];
    - at 13, [{ get debug() { throw undefined } }];
    - at 14, [{ get debug() { throw 'boom' } }];
    - at 15, [{ get debug() { throw new Error('boom') } }];
    - at 16, [{ get debug() { return true } }];
    - at 17, [{ get debug() { throw { get message() { throw 'inner' } } } }]. *)
Definition accessor_heap : gmap loc obj :=
  <[17%positive := OObject {["debug" := Accessor (Throws (ThrownFailing (ThrownStr "inner")))]}]> (
  <[16%positive := OObject {["debug" := Accessor (Returns (VBool true))]}]>
    (<[15%positive := OObject {["debug" := Accessor (Throws (ThrownError boom))]}]>
      (<[14%positive := OObject {["debug" := Accessor (Throws (ThrownStr "boom"))]}]>
        (<[13%positive := OObject {["debug" := Accessor (Throws ThrownUndefined)]}]>
          (<[12%positive := OObject {["debug" := Accessor (Throws ThrownNull)]}]>
            (lift_obj <$> example_heap)))))).

Definition throws_null_config : val := VRef 12.
Definition throws_undefined_config : val := VRef 13.
Definition throws_string_config : val := VRef 14.
Definition throws_error_config : val := VRef 15.
Definition getter_config : val := VRef 16.
Definition throws_failing_config : val := VRef 17.

Definition accessor_world (env : gmap string string) : world :=
  {| heap := accessor_heap; console := []; process_env := env |}.

(** [new SafeCfg(schema, { environment: 'production' })] *)
Definition production_instance : SafeCfg :=
  constructor db_schema (Some (in_environment "production")) (example_world ∅).

End FullExamples.


(* ===================================================================== *)
(** ** Running [load] *)
(* ===================================================================== *)

Module LoadFacts.
Import Js Cfg Examples.

Section heap_facts.
Implicit Types (h : gmap loc obj) (l : loc) (o : obj) (w : world).

Lemma fresh_loc_None h : h !! fresh_loc h = None.
Proof. apply not_elem_of_dom. unfold fresh_loc. apply (is_fresh (dom h)). Qed.

Lemma fresh_loc_ne h l : is_Some (h !! l) → l ≠ fresh_loc h.
Proof. intros [o Ho] ->. rewrite fresh_loc_None in Ho. discriminate. Qed.

Lemma alloc_subseteq h o : h ⊆ <[fresh_loc h := o]> h.
Proof. apply insert_subseteq, fresh_loc_None. Qed.

Lemma fresh_loc_above h h' : h ⊆ h' → h !! fresh_loc h' = None.
Proof.
  intros Hsub. destruct (h !! fresh_loc h') as [o|] eqn:E; [|done].
  eapply lookup_weaken in E; [|exact Hsub]. by rewrite fresh_loc_None in E.
Qed.

Lemma alloc_eq o w :
  alloc o w =
  (Ok (fresh_loc (heap w)), with_heap (<[fresh_loc (heap w) := o]> (heap w)) w).
Proof. reflexivity. Qed.

End heap_facts.

Section load_facts.
Implicit Types (this : SafeCfg) (config : val) (w : world) (h : gmap loc obj).

(** A fresh array never answers [debug]. *)
Lemma debug_enabled_alloc h l elems config :
  h !! l = None →
  debug_enabled (<[l := OArray elems]> h) config = debug_enabled h config.
Proof.
  intros Hl. destruct config as [| | | | |l']; try reflexivity. simpl.
  destruct (decide (l = l')) as [->|Hne].
  - by rewrite lookup_insert_eq, Hl.
  - by rewrite lookup_insert_ne.
Qed.

Lemma validateForProduction_run this config lw ws w :
  heap w !! lw = Some (OArray ws) →
  validateForProduction this config (VRef lw) w =
    match read_failure config with
    | Some e => (Throw e, w)
    | None =>
        if debug_enabled (heap w) config
        then (Ok tt, with_heap (<[lw := OArray (ws ++ [VStr debug_warning])]> (heap w)) w)
        else (Ok tt, w)
    end.
Proof.
  intros Hlw. unfold validateForProduction, bind, get_prop.
  destruct config as [| | | | |l]; try reflexivity. simpl.
  destruct (heap w !! l) as [[props|elems]|]; try reflexivity.
  destruct (strict_eq _ _); [|reflexivity].
  unfold array_push. by rewrite Hlw.
Qed.

Lemma read_result_object h l b le lw es ws :
  h !! l = Some (result_object (VBool b) (VRef le) (VRef lw)) →
  h !! le = Some (OArray (VStr <$> es)) →
  h !! lw = Some (OArray (VStr <$> ws)) →
  read_result h (VRef l) = Some {| valid := b; errors := es; warnings := ws |}.
Proof.
  intros Hl Hle Hlw. unfold read_result, result_object in *. rewrite Hl.
  simplify_map_eq.
  assert (Hs : ∀ xs : list string, mapM as_string (VStr <$> xs) = Some xs).
  { intros xs. apply mapM_Some. induction xs; constructor; simpl; auto. }
  by rewrite !Hs.
Qed.

Lemma own_keys_result h l v e ws :
  h !! l = Some (result_object v e ws) →
  own_keys h (VRef l) = Some ({["valid"; "errors"; "warnings"]} : gset string).
Proof. intros Hl. unfold own_keys, result_object in *. rewrite Hl. reflexivity. Qed.

Lemma try_block_run this config le lw w :
  heap w !! le = Some (OArray []) →
  heap w !! lw = Some (OArray []) →
  le ≠ lw →
  try_block this config le lw w =
    match (if is_production this then read_failure config else None) with
    | Some e => (Throw e, logged w)
    | None =>
        let h1 := checked_heap this config lw (heap w) in
        (Ok (VRef (fresh_loc h1)),
         with_heap (<[fresh_loc h1 := result_object (VBool true) (VRef le) (VRef lw)]> h1)
                   (logged w))
    end.
Proof.
  intros Hle Hlw Hne. unfold try_block, validateSchema, console_log, checked_heap.
  unfold bind at 1. unfold bind at 1.
  destruct (is_production this); simpl.
  - rewrite (validateForProduction_run _ _ _ []) by done.
    destruct (read_failure config) as [e|]; [reflexivity|].
    simpl. destruct (debug_enabled (heap w) config); unfold bind, get_prop; simpl.
    + rewrite lookup_insert_ne by done. rewrite Hle. reflexivity.
    + rewrite Hle. reflexivity.
  - unfold bind, get_prop, ret; simpl. rewrite Hle. reflexivity.
Qed.

Lemma catch_block_run error w :
  let l1 := fresh_loc (heap w) in
  let h1 := <[l1 := OArray [VStr ("Validation failed: " +:+ err_message error)]]> (heap w) in
  let l2 := fresh_loc h1 in
  let h2 := <[l2 := OArray []]> h1 in
  let l3 := fresh_loc h2 in
  catch_block error w =
    (Ok (VRef l3), with_heap (<[l3 := result_object (VBool false) (VRef l1) (VRef l2)]> h2) w).
Proof. reflexivity. Qed.

(** A result object allocated last, over arrays that are already there. *)
Lemma result_allocated (h0 h : gmap loc obj) b le lw es ws :
  h0 ⊆ h →
  h !! le = Some (OArray (VStr <$> es)) →
  h !! lw = Some (OArray (VStr <$> ws)) →
  let r := fresh_loc h in
  let h' := <[r := result_object (VBool b) (VRef le) (VRef lw)]> h in
  read_result h' (VRef r) = Some {| valid := b; errors := es; warnings := ws |}
  ∧ own_keys h' (VRef r) = Some ({["valid"; "errors"; "warnings"]} : gset string)
  ∧ h0 ⊆ h'
  ∧ h0 !! r = None.
Proof.
  intros Hsub Hle Hlw r h'.
  assert (Hh : h ⊆ h') by apply alloc_subseteq.
  split_and!.
  - eapply read_result_object.
    + apply lookup_insert_eq.
    + eapply lookup_weaken; [exact Hle|exact Hh].
    + eapply lookup_weaken; [exact Hlw|exact Hh].
  - eapply own_keys_result. apply lookup_insert_eq.
  - by etrans.
  - by apply fresh_loc_above.
Qed.

Ltac world_simpl :=
  cbn [heap console process_env with_heap logged with_console].

Lemma load_run this config w :
  ∃ r w', load this config w = (Resolved (VRef r), w') ∧ load_post this config w r w'.
Proof.
  unfold load, async, load_body.
  unfold bind at 1. rewrite alloc_eq. unfold bind at 1. rewrite alloc_eq.
  set (le := fresh_loc (heap w)).
  set (h1 := <[le := OArray []]> (heap w)).
  world_simpl. set (lw := fresh_loc h1). set (h2 := <[lw := OArray []]> h1).
  assert (Hlw : h1 !! lw = None) by apply fresh_loc_None.
  assert (Hne : le ≠ lw).
  { intros E. rewrite <- E in Hlw. unfold h1 in Hlw. by rewrite lookup_insert_eq in Hlw. }
  assert (H01 : heap w ⊆ h1) by apply alloc_subseteq.
  assert (H02 : heap w ⊆ h2) by (etrans; [exact H01|apply alloc_subseteq]).
  assert (H2le : h2 !! le = Some (OArray [])).
  { unfold h2. rewrite lookup_insert_ne by done. apply lookup_insert_eq. }
  assert (H2lw : h2 !! lw = Some (OArray [])) by apply lookup_insert_eq.
  assert (Hdbg : debug_enabled h2 config = debug_enabled (heap w) config).
  { unfold h2, h1. rewrite !debug_enabled_alloc; [done|apply fresh_loc_None|done]. }
  unfold try_catch. rewrite try_block_run by done.
  unfold load_post, expected, checked_heap.
  world_simpl. rewrite Hdbg.
  destruct (is_production this) eqn:Hprod; cbn [andb];
    [destruct (read_failure config) as [e|] eqn:Hfail;
       [|destruct (debug_enabled (heap w) config)]|].
  - (* the handler ran *)
    rewrite catch_block_run. world_simpl.
    set (l1 := fresh_loc h2). set (h3 := <[l1 := _]> h2).
    set (l2 := fresh_loc h3). set (h4 := <[l2 := _]> h3).
    eexists _, _. split; [reflexivity|]. world_simpl. split; [|by split].
    apply (result_allocated (heap w) h4 false l1 l2 [_] []).
    + etrans; [exact H02|]. etrans; apply alloc_subseteq.
    + unfold h4. rewrite lookup_insert_ne; [apply lookup_insert_eq|].
      apply not_eq_sym, fresh_loc_ne. unfold h3. rewrite lookup_insert_eq. eauto.
    + apply lookup_insert_eq.
  - (* the warning was pushed *)
    world_simpl. eexists _, _. split; [reflexivity|]. world_simpl.
    split; [|by split].
    apply (result_allocated (heap w) _ true le lw [] [_]).
    + unfold h2. rewrite insert_insert_eq. etrans; [exact H01|]. by apply insert_subseteq.
    + by rewrite lookup_insert_ne.
    + apply lookup_insert_eq.
  - world_simpl. eexists _, _. split; [reflexivity|]. world_simpl.
    split; [|by split].
    by apply (result_allocated (heap w) h2 true le lw [] []).
  - world_simpl. eexists _, _. split; [reflexivity|]. world_simpl.
    split; [|by split].
    by apply (result_allocated (heap w) h2 true le lw [] []).
Qed.

(** The caller's view of it. *)
Lemma load_settles this config w :
  settled_result (load this config w) = Some (expected this (heap w) config).
Proof.
  destruct (load_run this config w) as (r & w' & Hrun & (Hres & _) & _).
  by rewrite Hrun.
Qed.

Lemma load_frame this config w : heap w ⊆ heap (snd (load this config w)).
Proof.
  destruct (load_run this config w) as (r & w' & Hrun & (_ & _ & Hsub & _) & _).
  by rewrite Hrun.
Qed.

(** The [try] block raises exactly when the production check cannot read
    the config. *)
Lemma raised_eq this config w :
  raised this config w = if is_production this then read_failure config else None.
Proof.
  unfold raised. unfold bind at 1. rewrite alloc_eq. unfold bind at 1. rewrite alloc_eq.
  set (le := fresh_loc (heap w)).
  set (h1 := <[le := OArray []]> (heap w)).
  world_simpl. set (lw := fresh_loc h1).
  assert (Hlw : h1 !! lw = None) by apply fresh_loc_None.
  assert (Hne : le ≠ lw).
  { intros E. rewrite <- E in Hlw. unfold h1 in Hlw. by rewrite lookup_insert_eq in Hlw. }
  rewrite try_block_run; world_simpl.
  - by destruct (is_production this), (read_failure config).
  - rewrite lookup_insert_ne by done. apply lookup_insert_eq.
  - apply lookup_insert_eq.
  - done.
Qed.

End load_facts.

(* --------------------------------------------------------------------- *)
(** *** The instance the constructor builds *)
(* --------------------------------------------------------------------- *)

Section constructor_facts.
Implicit Types (w : world) (s : string).

(** An environment given in the options wins over [NODE_ENV]. *)
Lemma constructor_given schema s strict w :
  environment (options (constructor schema
     (Some {| environment := Given s; strict := strict |}) w)) = Given s.
Proof. reflexivity. Qed.

(** With no options, the environment is [NODE_ENV], or ['development'] when
    the variable is unset or empty. *)
Lemma constructor_default schema w :
  environment (options (constructor schema None w))
  = Given (or_else (process_env w !! "NODE_ENV") "development").
Proof. reflexivity. Qed.

(** [{ environment: undefined }] erases the default: such an instance is
    never in production. *)
Lemma constructor_undefined schema strict w :
  is_production (constructor schema
     (Some {| environment := Undef; strict := strict |}) w) = false.
Proof. reflexivity. Qed.

End constructor_facts.

(* --------------------------------------------------------------------- *)
(** *** What [load] guarantees *)
(* --------------------------------------------------------------------- *)

Section load_claims.
Implicit Types (this : SafeCfg) (config : val) (w : world) (h : gmap loc obj).

Lemma object_reads config w :
  is_object (heap w) config → read_failure config = None.
Proof. by destruct config. Qed.

Lemma same_shallow_refl v : same_shallow v v.
Proof. by destruct v. Qed.

Lemma same_cell_refl o : same_cell o o.
Proof.
  destruct o as [[props|elems]|]; simpl; [|apply Forall2_same_length_lookup|done].
  - intros key. destruct (props !! key); constructor. apply same_shallow_refl.
  - split; [done|]. intros i x y Hx Hy. rewrite Hx in Hy. injection Hy as <-.
    apply same_shallow_refl.
Qed.

Lemma same_config_refl h1 h2 c :
  (∀ l, c = VRef l → h1 !! l = h2 !! l) → same_config h1 c h2 c.
Proof.
  intros Hc. destruct c as [| | | | |l]; try done. simpl.
  rewrite (Hc l eq_refl). apply same_cell_refl.
Qed.

(** Whether the check sees [debug: true] depends on the own properties of
    the config only, and only up to references. *)
Lemma debug_enabled_same_config h1 c1 h2 c2 :
  same_config h1 c1 h2 c2 → debug_enabled h1 c1 = debug_enabled h2 c2.
Proof.
  unfold same_config, debug_enabled. intros Hsame.
  destruct c1 as [| | | | |l1], c2 as [| | | | |l2]; try done.
  destruct (h1 !! l1) as [[p1|a1]|], (h2 !! l2) as [[p2|a2]|]; try done.
  simpl in Hsame. specialize (Hsame "debug").
  destruct Hsame as [v1 v2 Hv|]; [|done]. simpl.
  destruct v1, v2; try done; simpl in Hv; by simplify_eq.
Qed.

Lemma expected_same_config this h1 c1 h2 c2 :
  same_config h1 c1 h2 c2 → expected this h1 c1 = expected this h2 c2.
Proof.
  intros Hsame. unfold expected.
  rewrite (debug_enabled_same_config _ _ _ _ Hsame).
  assert (Hfail : read_failure c1 = read_failure c2).
  { unfold same_config in Hsame. destruct c1, c2; try done; by simplify_eq. }
  by rewrite Hfail.
Qed.

Lemma is_production_spec this :
  is_production this = true ↔ environment (options this) = Given "production".
Proof.
  unfold is_production.
  destruct (environment (options this)) as [| |s]; try (split; discriminate).
  rewrite String.eqb_eq. split; congruence.
Qed.

Lemma debug_enabled_spec config w :
  debug_enabled (heap w) config = true ↔
  fst (get_prop config "debug" w) = Ok (VBool true).
Proof.
  unfold debug_enabled, get_prop.
  destruct config as [| | | | s |l]; simpl; try (split; discriminate).
  destruct (heap w !! l) as [[props|elems]|]; simpl; try (split; discriminate).
  unfold strict_eq. rewrite bool_decide_eq_true. split; congruence.
Qed.

(** A property read gives the same answer in a heap that only grew. *)
Lemma get_prop_frame (v : val) key w w' :
  (∀ l, v = VRef l → is_Some (heap w !! l)) →
  heap w ⊆ heap w' →
  fst (get_prop v key w') = fst (get_prop v key w).
Proof.
  intros Hlive Hsub. destruct v as [| | | | s |l]; simpl; try reflexivity.
  - by destruct (key =? "length")%string, (array_index key) as [i|];
      try destruct (String.get i s).
  - destruct (Hlive l eq_refl) as [o Ho].
    rewrite Ho, (lookup_weaken _ _ _ _ Ho Hsub).
    destruct o as [props|elems]; [reflexivity|].
    by destruct (key =? "length")%string, (array_index key).
Qed.

(** Claim C1. For every instance, whatever its schema and options, and
    every config that is a non-null object and for which the [try] block of
    [load] raises nothing, the promise resolves to a result with [valid]
    true and no errors. The schema is never consulted: an instance with the
    same options and any other schema, run in any other world that holds
    the same config, resolves to the same result. *)
Theorem load_accepts_every_object this config w :
  is_object (heap w) config →
  raised this config w = None →
  (∃ ws, settled_result (load this config w)
         = Some {| valid := true; errors := []; warnings := ws |})
  ∧ (∀ this' w',
       options this' = options this →
       same_config (heap w') config (heap w) config →
       settled_result (load this' config w') = settled_result (load this config w)).
Proof.
  intros Hobj Hraised. rewrite raised_eq in Hraised. split.
  - rewrite load_settles. unfold expected.
    destruct (is_production this); [rewrite Hraised|]; eauto.
  - intros this' w' Hopt Hsame. rewrite !load_settles.
    rewrite (expected_same_config this' _ _ _ _ Hsame).
    unfold expected, is_production. by rewrite Hopt.
Qed.

Lemma load_accepts_every_object_witness :
  let w := example_world ∅ in
  let this := constructor db_schema None w in
  is_object (heap w) db_empty_config
  ∧ raised this db_empty_config w = None
  ∧ ∃ ws, settled_result (load this db_empty_config w)
          = Some {| valid := true; errors := []; warnings := ws |}.
Proof.
  intros w this.
  assert (Hobj : is_object (heap w) db_empty_config)
    by (eexists; vm_compute; reflexivity).
  assert (Hr : raised this db_empty_config w = None)
    by (vm_compute; reflexivity).
  split; [exact Hobj|]. split; [exact Hr|].
  exact (proj1 (load_accepts_every_object this db_empty_config w Hobj Hr)).
Defined.

(** Claim C2. Every call of [load] resolves to a result whose [valid] is
    true exactly when its [errors] list is empty (every entry of that list
    is an error; the class records no other severity there). Warnings play
    no part: a result that carries a warning is valid. *)
Theorem valid_iff_no_error this config w :
  ∃ r, settled_result (load this config w) = Some r
       ∧ (valid r = true ↔ errors r = [])
       ∧ (warnings r ≠ [] → valid r = true).
Proof.
  rewrite load_settles. eexists. split; [reflexivity|]. unfold expected.
  destruct (is_production this); [destruct (read_failure config)|]; simpl.
  - split; [split; discriminate|]. congruence.
  - by split.
  - by split.
Qed.

(** Claim C3, as stated, fails: for the schema
    [{db: {host: {type: 'string', required: true},
           port: {type: 'number', default: 5432}}}] and the config
    [{db: {}}], [load] resolves to a valid result with no error at all. *)
Lemma missing_required_field_is_not_reported :
  let w := example_world ∅ in
  let this := constructor db_schema None w in
  settled_result (load this db_empty_config w)
  = Some {| valid := true; errors := []; warnings := [] |}
  ∧ ¬ ∃ r e, settled_result (load this db_empty_config w) = Some r
             ∧ valid r = false ∧ errors r = [e].
Proof.
  intros w this.
  assert (H : settled_result (load this db_empty_config w)
              = Some {| valid := true; errors := []; warnings := [] |})
    by (vm_compute; reflexivity).
  split; [exact H|]. intros (r & e & Hr & Hv & _). rewrite H in Hr.
  injection Hr as <-. discriminate.
Qed.

(** Claim C3, amended. For that schema and the config [{db: {}}], whatever
    the options and the process environment, [load] resolves to a result
    with [valid] true, no error and no warning: the schema is not consulted
    and the missing [db.host] is not reported. *)
Theorem empty_db_config_is_accepted (opts : option SafeCfgOptions)
    (env : gmap string string) :
  let w := example_world env in
  settled_result (load (constructor db_schema opts w) db_empty_config w)
  = Some {| valid := true; errors := []; warnings := [] |}.
Proof.
  intros w. rewrite load_settles. unfold expected.
  by destruct (is_production _).
Qed.

(** Claim C4. The production check fires exactly when the configured
    environment is ['production'] and [config.debug] is the boolean [true].
    When it fires, the result is valid, has no error and exactly one
    warning, which mentions debug mode; when it does not, the result has no
    warning. *)
Theorem production_debug_check this config w :
  let fires := is_production this && debug_enabled (heap w) config in
  (fires = true ↔
     environment (options this) = Given "production"
     ∧ fst (get_prop config "debug" w) = Ok (VBool true))
  ∧ (∃ r, settled_result (load this config w) = Some r
          ∧ if fires
            then r = {| valid := true; errors := []; warnings := [debug_warning] |}
            else warnings r = [])
  ∧ mentions "Debug mode" debug_warning = true.
Proof.
  intros fires. split_and!.
  - unfold fires. by rewrite andb_true_iff, is_production_spec, debug_enabled_spec.
  - rewrite load_settles. eexists. split; [reflexivity|]. unfold fires, expected.
    destruct (is_production this); cbn [andb]; [|reflexivity].
    destruct (read_failure config) as [e|] eqn:Hfail.
    + assert (Hd : debug_enabled (heap w) config = false) by (by destruct config).
      by rewrite Hd.
    + by destruct (debug_enabled (heap w) config).
  - reflexivity.
Qed.

(** The documented example of C4: [{debug: true}] in production. *)
Example debug_in_production :
  let w := example_world ∅ in
  let this := constructor debug_schema (Some (in_environment "production")) w in
  settled_result (load this debug_config w)
  = Some {| valid := true; errors := []; warnings := [debug_warning] |}.
Proof. vm_compute. reflexivity. Qed.

(** Claim C6, as stated, fails: for the schema of C3 and the config
    [{db: {host: 'localhost'}}] the result is valid, but it carries no
    configuration ([result.config.db.port] cannot even be read), and the
    config passed in still has no [db.port]. *)
Lemma default_is_not_applied :
  let w := example_world ∅ in
  let this := constructor db_schema None w in
  match load this db_host_config w with
  | (Resolved r, w') =>
      fst (get_path r ["config"; "db"; "port"] w')
        = Throw (cannot_read "undefined" "db")
      ∧ fst (get_path r ["data"; "db"; "port"] w')
        = Throw (cannot_read "undefined" "db")
      ∧ fst (get_path db_host_config ["db"; "port"] w') = Ok VUndefined
      ∧ fst (get_path db_host_config ["db"; "port"] w') ≠ Ok (VNum 5432)
  | (Rejected _, _) => False
  end.
Proof. vm_compute. split_and!; try reflexivity. discriminate. Qed.

(** Claim C9. For a fixed instance, two calls of [load] on the same config
    resolve to the same result (same [valid], [errors] and [warnings]),
    whatever the two worlds they run in: nothing of the process
    environment, the console or the rest of the heap is read. *)
Theorem load_deterministic this c1 c2 w1 w2 :
  same_config (heap w1) c1 (heap w2) c2 →
  settled_result (load this c1 w1) = settled_result (load this c2 w2).
Proof.
  intros Hsame. rewrite !load_settles. f_equal. by apply expected_same_config.
Qed.

Lemma load_deterministic_witness :
  let w1 := example_world ∅ in
  let w2 := example_world {["NODE_ENV" := "test"]} in
  let this := constructor debug_schema (Some (in_environment "production")) w1 in
  same_config (heap w1) debug_config (heap w2) debug_config
  ∧ settled_result (load this debug_config w1)
    = settled_result (load this debug_config w2).
Proof.
  intros w1 w2 this.
  assert (Hs : same_config (heap w1) debug_config (heap w2) debug_config)
    by (by apply same_config_refl).
  split; [exact Hs|].
  exact (load_deterministic this debug_config debug_config w1 w2 Hs).
Defined.

(** A second call, made in the world the first one left and with the
    process environment changed in between, resolves to the same result. *)
Lemma load_twice this config w env' :
  is_object (heap w) config →
  let w1 := snd (load this config w) in
  let w1' := {| heap := heap w1; console := console w1; process_env := env' |} in
  settled_result (load this config w1') = settled_result (load this config w).
Proof.
  intros Hobj w1 w1'. rewrite !load_settles. f_equal.
  apply expected_same_config, same_config_refl. intros l ->.
  destruct Hobj as [props Hl]. unfold w1', w1. cbn [heap].
  rewrite Hl. exact (lookup_weaken _ _ _ _ Hl (load_frame this (VRef l) w)).
Qed.

(** Claim C10. [load] never mutates its input: every object that is in the
    heap when [load] is called, the config and whatever it refers to, is
    the same when [load] has returned, and every property of a live value,
    [config.debug] among them, reads as before. *)
Theorem load_leaves_input_untouched this config w :
  let w' := snd (load this config w) in
  heap w ⊆ heap w'
  ∧ ∀ v key,
      (∀ l, v = VRef l → is_Some (heap w !! l)) →
      fst (get_prop v key w') = fst (get_prop v key w).
Proof.
  intros w'. split; [apply load_frame|].
  intros v key Hlive. apply get_prop_frame; [exact Hlive|apply load_frame].
Qed.

End load_claims.

End LoadFacts.

(* ===================================================================== *)
(** ** The traversal finds the cycles *)
(* ===================================================================== *)

Module CompilerFacts.
Import Compiler Examples.
Local Open Scope nat_scope.

Section traversal.
Context (g : DependencyGraph).

Local Abbreviation edge := (Compiler.edge g).
Local Abbreviation stack := (Compiler.stack g).
Local Abbreviation enters := (Compiler.enters g).
Local Abbreviation finished := (Compiler.finished g).
Local Abbreviation visited := (Compiler.visited g).

Lemma edge_nodes a b : edge a b → a ∈ requires_nodes g ∧ b ∈ requires_nodes g.
Proof.
  unfold Compiler.edge, getDependencies, targets, requires_nodes.
  rewrite list_elem_of_fmap. intros (e & -> & He).
  apply list_elem_of_filter in He as [[<- Hk] He].
  split; apply list_elem_of_bind; exists e; (split; [set_solver|]);
    by apply list_elem_of_filter.
Qed.

Lemma stack_push gray p : stack gray → enters gray p → stack (p :: gray).
Proof. destruct gray; intros Hs He; constructor; auto. Qed.

(** Every path of the stack reaches its top. *)
Lemma stack_reach p gray u : stack (p :: gray) → u ∈ p :: gray → rtc edge u p.
Proof.
  revert p. induction gray as [|q gray IH]; intros p Hs Hu.
  - apply list_elem_of_singleton in Hu as ->. done.
  - inversion Hs; subst. apply elem_of_cons in Hu as [->|Hu]; [done|].
    eapply rtc_r; [by apply IH|done].
Qed.

(** Finished paths are closed under the edges. *)
Lemma finished_closed l p q : finished l → p ∈ l → rtc edge p q → q ∈ l.
Proof.
  intros Hf Hp Hpq. revert Hp. induction Hpq as [|a b c Hab _ IH]; [done|].
  intros Ha. apply IH. clear IH. induction Hf as [|p0 l Hn Hs Hf IHf]; [set_solver|].
  apply elem_of_cons in Ha as [->|Ha]; [right; by apply Hs|right; by apply IHf].
Qed.

(** No finished path lies on a cycle. *)
Lemma finished_acyclic l p : finished l → p ∈ l → ¬ tc edge p p.
Proof.
  induction 1 as [|p0 l Hn Hs Hf IH]; [set_solver|].
  intros Hp Hcyc. apply elem_of_cons in Hp as [->|Hp]; [|by apply IH].
  apply Hn. inversion Hcyc as [? ? Hq|? q ? Hq Hrest]; subst.
  - by apply Hs.
  - eapply finished_closed; [exact Hf|by apply Hs|by apply tc_rtc].
Qed.

Lemma visit_all_visited (f : list string → string → traversal) gray ps :
  (∀ black p, p ∈ ps → finished black → visited gray black [p] (f black p)) →
  ∀ black, finished black → visited gray black ps (visit_all f black ps).
Proof.
  induction ps as [|p ps IH]; intros Hf black Hfin; simpl.
  - split_and!; [done|set_solver|done|by left].
  - pose proof (Hf black p ltac:(left) Hfin) as Hp.
    destruct (f black p) as [m|black1]; [exact Hp|].
    destruct Hp as (Hfin1 & Hin1 & Hmono1 & Hnew1).
    assert (Hrest : visited gray black1 ps (visit_all f black1 ps)).
    { apply IH; [|done]. intros b q Hq. apply Hf. by right. }
    destruct (visit_all f black1 ps) as [m|black2]; [exact Hrest|].
    destruct Hrest as (Hfin2 & Hin2 & Hmono2 & Hnew2).
    split_and!; [done| | |].
    + intros q Hq. apply elem_of_cons in Hq as [->|Hq];
        [apply Hmono2, Hin1; by left|by apply Hin2].
    + intros q Hq. by apply Hmono2, Hmono1.
    + intros q Hq. destruct (Hnew2 q Hq) as [Hq1|Hq1]; [by apply Hnew1|by right].
Qed.

(** The invariant of one visit. The fuel never runs out: the stack has no
    repetition, so it is no longer than the list of paths. *)
Lemma visit_visited fuel gray black p :
  stack gray → enters gray p → NoDup gray →
  (∀ q, q ∈ gray → q ∈ requires_nodes g) →
  p ∈ requires_nodes g →
  length (requires_nodes g) < fuel + length gray →
  finished black →
  visited gray black [p] (visit fuel g gray black p).
Proof.
  revert gray black p. induction fuel as [|fuel IH];
    intros gray black p Hstack Henter Hnd Hsub Hp Hfuel Hfin.
  - exfalso. apply NoDup_submseteq in Hsub; [|done].
    apply submseteq_length in Hsub. simpl in Hfuel. lia.
  - simpl. destruct (decide (p ∈ gray)) as [Hgray|Hgray].
    { (* a back edge *)
      destruct gray as [|q gray]; [set_solver|]. simpl in Henter.
      eapply tc_rtc_l; [by eapply stack_reach|by apply tc_once]. }
    destruct (decide (p ∈ black)) as [Hblack|Hblack].
    { split_and!; [done|by intros q ->%list_elem_of_singleton|done|by left]. }
    assert (Hdeps : visited (p :: gray) black (getDependencies g p)
              (visit_all (visit fuel g (p :: gray)) black (getDependencies g p))).
    { apply visit_all_visited; [|done]. intros b q Hq Hb. apply IH.
      - by apply stack_push.
      - exact Hq.
      - by apply NoDup_cons.
      - intros x Hx. apply elem_of_cons in Hx as [->|Hx]; auto.
      - by apply (edge_nodes p q).
      - simpl. lia.
      - done. }
    destruct (visit_all _ _ _) as [m|black']; [exact Hdeps|].
    destruct Hdeps as (Hfin' & Hin' & Hmono' & Hnew').
    split_and!.
    + constructor; [|done|done].
      intros Hp'. destruct (Hnew' p Hp') as [?|Hn]; [done|]. apply Hn. by left.
    + intros q ->%list_elem_of_singleton. by left.
    + intros q Hq. right. by apply Hmono'.
    + intros q Hq. apply elem_of_cons in Hq as [->|Hq]; [by right|].
      destruct (Hnew' q Hq) as [?|Hn]; [by left|]. right. intros ?. apply Hn. by right.
Qed.

Lemma traversal_visited :
  visited [] [] (requires_nodes g)
    (visit_all (visit (S (length (requires_nodes g))) g []) [] (requires_nodes g)).
Proof.
  apply visit_all_visited; [|constructor]. intros b q Hq Hb.
  apply visit_visited; try done; [constructor|constructor|set_solver|simpl; lia].
Qed.

(** What the traversal names lies on a cycle. *)
Lemma find_cycle_sound m : find_cycle g = Some m → tc edge m m.
Proof.
  unfold find_cycle. intros Hm. pose proof traversal_visited as Hall.
  destruct (visit_all _ _ _) as [m'|black]; [|discriminate].
  by injection Hm as <-.
Qed.

(** The traversal finds a cycle whenever there is one. *)
Lemma find_cycle_complete :
  (∃ p, tc edge p p) → ∃ m, find_cycle g = Some m ∧ tc edge m m.
Proof.
  intros [p Hp]. destruct (find_cycle g) as [m|] eqn:Hfind.
  { exists m. split; [done|]. by apply find_cycle_sound. }
  exfalso. unfold find_cycle in Hfind. pose proof traversal_visited as Hall.
  destruct (visit_all _ _ _) as [m|black]; [discriminate|].
  destruct Hall as (Hfin & Hin & _).
  eapply finished_acyclic; [exact Hfin| |exact Hp].
  apply Hin. inversion Hp as [? ? Hq|? q ? Hq _]; subst; by apply (edge_nodes _ _ Hq).
Qed.

(** [hasCircularDependency] is true iff the [requires] subgraph has a
    cycle. *)
Lemma hasCircularDependency_spec :
  hasCircularDependency g = true ↔ ∃ p, tc edge p p.
Proof.
  unfold hasCircularDependency. rewrite bool_decide_eq_true. split.
  - intros [m Hm]. exists m. by apply find_cycle_sound.
  - intros Hcyc. destruct (find_cycle_complete Hcyc) as (m & -> & _). by eexists.
Qed.

End traversal.

Section graph_of_schema.

Lemma elem_of_addDependency g a b k e :
  e ∈ edges (addDependency g a b k) ↔ e ∈ edges g ∨ e = mk_edge a b k.
Proof.
  unfold addDependency. case_decide; simpl.
  - split; [by left|]. by intros [?| ->].
  - rewrite elem_of_app, list_elem_of_singleton. done.
Qed.

(** [addDependency] is idempotent. *)
Lemma addDependency_idempotent g a b k :
  addDependency (addDependency g a b k) a b k = addDependency g a b k.
Proof.
  unfold addDependency at 1. rewrite decide_True; [done|].
  apply elem_of_addDependency. by right.
Qed.

Lemma elem_of_add_targets g a k (l : list string) e :
  e ∈ edges (foldl (λ g to, addDependency g a to k) g l)
  ↔ e ∈ edges g ∨ ∃ b, b ∈ l ∧ e = mk_edge a b k.
Proof.
  revert g. induction l as [|b l IH]; intros g; simpl.
  - split; [by left|]. intros [?|(b & Hb & _)]; [done|]. by apply elem_of_nil in Hb.
  - rewrite IH, elem_of_addDependency. split.
    + intros [[?| ->]|(b' & Hb' & ->)]; [by left|right..].
      * exists b. split; [by left|done].
      * exists b'. split; [by right|done].
    + intros [?|(b' & Hb' & ->)]; [by left; left|].
      apply elem_of_cons in Hb' as [->|Hb']; [by left; right|].
      right. by exists b'.
Qed.

Lemma elem_of_add_path_edges cp g e :
  e ∈ edges (add_path_edges cp g) ↔ e ∈ edges g ∨ declares cp e.
Proof.
  unfold add_path_edges, declares. rewrite !elem_of_add_targets. tauto.
Qed.

Lemma elem_of_build_graph (cps : list CompiledPath) e :
  e ∈ edges (build_graph cps) ↔ ∃ cp, cp ∈ cps ∧ declares cp e.
Proof.
  unfold build_graph.
  assert (H : ∀ g, e ∈ edges (foldl (λ g cp, add_path_edges cp g) g cps)
                   ↔ e ∈ edges g ∨ ∃ cp, cp ∈ cps ∧ declares cp e).
  { induction cps as [|cp cps IH]; intros g; simpl.
    - split; [by left|]. intros [?|(cp & Hcp & _)]; [done|]. by apply elem_of_nil in Hcp.
    - rewrite IH, elem_of_add_path_edges. split.
      + intros [[?|?]|(cp' & ? & ?)]; [by left|right..].
        * exists cp. split; [by left|done].
        * exists cp'. split; [by right|done].
      + intros [?|(cp' & Hcp' & ?)]; [by left; left|].
        apply elem_of_cons in Hcp' as [->|Hcp']; [by left; right|].
        right. by exists cp'. }
  rewrite H. simpl. split; [|by right]. intros [Hnil|?]; [|done].
  by apply elem_of_nil in Hnil.
Qed.

(** The [requires] edges of the compiled graph are the [dependsOn]
    declarations of the schema. *)
Lemma edge_build_graph schema a b :
  edge (build_graph (flatten schema)) a b ↔ depends schema a b.
Proof.
  unfold edge, getDependencies, targets, depends.
  rewrite list_elem_of_fmap. split.
  - intros (e & -> & He). apply list_elem_of_filter in He as [[<- Hk] He].
    apply elem_of_build_graph in He as (cp & Hcp & [(b & Hb & ->)|(b & Hb & ->)]);
      [|discriminate].
    by exists cp.
  - intros (cp & Hcp & <- & Hb). exists (mk_edge (path cp) b Requires).
    split; [done|]. apply list_elem_of_filter. split; [done|].
    apply elem_of_build_graph. exists cp. split; [done|]. left. by exists b.
Qed.

Lemma tc_iff {A} (R1 R2 : relation A) :
  (∀ a b, R1 a b ↔ R2 a b) → ∀ a b, tc R1 a b ↔ tc R2 a b.
Proof.
  intros HR a b. split; induction 1 as [a b H|a b c H _ IH].
  - apply tc_once. by apply HR.
  - eapply tc_l; [by apply HR|done].
  - apply tc_once. by apply HR.
  - eapply tc_l; [by apply HR|done].
Qed.

(** Claim C7. For every schema whose [dependsOn] declarations contain a
    cycle, compiling fails with a [SchemaError] whose code is
    [CIRCULAR_DEPENDENCY] and which names a path that lies on a cycle; the
    failure comes before any validation: [load] on such a schema fails with
    the same error, whatever the configuration. *)
Theorem cyclic_schema_fails_to_compile schema :
  (∃ p, tc (depends schema) p p) →
  ∃ m,
    tc (depends schema) m m
    ∧ compile schema = inl {| code := CIRCULAR_DEPENDENCY; cycle_member := m |}
    ∧ ∀ provider raw,
        Engine.load provider schema raw
        = inl {| code := CIRCULAR_DEPENDENCY; cycle_member := m |}.
Proof.
  intros [p Hp].
  destruct (find_cycle_complete (build_graph (flatten schema))) as (m & Hm & Hcyc).
  { exists p. by apply (tc_iff _ _ (edge_build_graph schema)). }
  exists m.
  assert (Hcompile : compile schema
            = inl {| code := CIRCULAR_DEPENDENCY; cycle_member := m |}).
  { unfold compile. by rewrite Hm. }
  split_and!.
  - by apply (tc_iff _ _ (edge_build_graph schema)).
  - exact Hcompile.
  - intros provider raw. unfold Engine.load. by rewrite Hcompile.
Qed.

Lemma cyclic_schema_fails_to_compile_witness :
  (∃ p, tc (depends cyclic_schema) p p)
  ∧ ∃ m,
      tc (depends cyclic_schema) m m
      ∧ compile cyclic_schema
        = inl {| code := CIRCULAR_DEPENDENCY; cycle_member := m |}
      ∧ ∀ provider raw,
          Engine.load provider cyclic_schema raw
          = inl {| code := CIRCULAR_DEPENDENCY; cycle_member := m |}.
Proof.
  assert (Hab : depends cyclic_schema "a" "b.c").
  { eexists. split; [|split]; [apply list_elem_of_here|reflexivity|].
    apply list_elem_of_here. }
  assert (Hba : depends cyclic_schema "b.c" "a").
  { eexists. split; [|split];
      [apply list_elem_of_further, list_elem_of_here|reflexivity|].
    apply list_elem_of_here. }
  assert (Hcyc : ∃ p, tc (depends cyclic_schema) p p).
  { exists "a". eapply tc_l; [exact Hab|]. apply tc_once, Hba. }
  split; [exact Hcyc|].
  exact (cyclic_schema_fails_to_compile cyclic_schema Hcyc).
Defined.

(** The cycle of the example is found at its first declared path. *)
Example cyclic_schema_error :
  compile cyclic_schema
  = inl {| code := CIRCULAR_DEPENDENCY; cycle_member := "a" |}.
Proof. vm_compute. reflexivity. Qed.

(** [conflicts] edges are no ordering constraints: two fields that exclude
    each other compile, and each is listed as the conflict of the other. *)
Example conflicts_are_no_cycle :
  ∃ cs, compile conflicting_schema = inr cs
        ∧ getConflicts (dependencies cs) "a" = ["b"]
        ∧ getConflicts (dependencies cs) "b" = ["a"]
        ∧ hasCircularDependency (dependencies cs) = false.
Proof. eexists. split; [vm_compute; reflexivity|]. by vm_compute. Qed.

End graph_of_schema.

End CompilerFacts.

(* ===================================================================== *)
(** ** The masked view hides the secrets *)
(* ===================================================================== *)

Module EngineFacts.
Import Compiler Engine Examples EngineExamples.

Section views.
Implicit Types (d : SchemaDefinition) (c v : json) (p : list string)
  (fields : list (string * json)) (provider : gmap string string).














(** The three views of the example. *)
Example password_views :
  Engine.load ∅ password_schema password_config
  = inr {| config := password_config;
           safeConfig :=
             JObj [("db", JObj [("host", JStr "localhost");
                                ("password", redaction_marker)])];
           rawConfig := password_config |}.
Proof. vm_compute. reflexivity. Qed.

(** A default and a bound variable fill the fields the source leaves out;
    the secret that came from the environment is masked too. *)
Example bound_views :
  Engine.load password_env bound_schema host_config
  = inr {| config :=
             JObj [("db", JObj [("host", JStr "localhost");
                                ("port", JNum 5432);
                                ("password", JStr "hunter2")])];
           safeConfig :=
             JObj [("db", JObj [("host", JStr "localhost");
                                ("port", JNum 5432);
                                ("password", redaction_marker)])];
           rawConfig := host_config |}.
Proof. vm_compute. reflexivity. Qed.

(** An explicit value comes before the binding and the default. *)
Example explicit_value_wins :
  fill password_env bound_schema
    (JObj [("db", JObj [("port", JNum 1); ("password", JStr "given")])])
  = JObj [("db", JObj [("port", JNum 1); ("password", JStr "given")])].
Proof. vm_compute. reflexivity. Qed.

End views.

End EngineFacts.

(* ===================================================================== *)
(** ** More on [load] and the constructor *)
(* ===================================================================== *)

Module LoadMore.
Import Js Cfg Examples LoadFacts.

Section more.
Implicit Types (this : SafeCfg) (config : val) (w : world) (h : gmap loc obj).

Ltac world_simpl :=
  cbn [heap console process_env with_heap logged with_console].

(** Of the instance, [load] reads nothing but whether its environment is
    ['production']. *)
Lemma load_reads_is_production this this' config w :
  is_production this = is_production this' →
  load this config w = load this' config w.
Proof.
  intros Hprod.
  unfold load, load_body, try_block, validateSchema, validateForProduction.
  by rewrite Hprod.
Qed.

(** X1. Neither the schema nor the [strict] option has any effect on
    [load]: two instances constructed with the same [environment] option in
    the same process, whatever their schemas and [strict] options, settle
    every call the same way and leave the same heap and console. *)
Theorem schema_and_strict_are_ignored (schema schema' : val)
    (env : field string) (strict strict' : field bool) (w0 : world)
    config w :
  load (constructor schema (Some {| environment := env; strict := strict |}) w0)
       config w
  = load (constructor schema' (Some {| environment := env; strict := strict' |}) w0)
         config w.
Proof. by apply load_reads_is_production. Qed.

(** X2. Every call of [load] writes exactly one line, ['Validating
    schema...'], to the console, also when validation fails, and leaves the
    process environment as it was. *)
Theorem load_always_logs this config w :
  console (snd (load this config w)) = (console w ++ ["Validating schema..."])%list
  ∧ process_env (snd (load this config w)) = process_env w.
Proof.
  destruct (load_run this config w) as (r & w' & Hrun & _ & Hc & He).
  by rewrite Hrun.
Qed.

Lemma read_strings_weaken h h' v xs :
  h ⊆ h' → read_strings h v = Some xs → read_strings h' v = Some xs.
Proof.
  intros Hsub. unfold read_strings. destruct v as [| | | | |l]; try done.
  destruct (h !! l) as [o|] eqn:Hl; [|done].
  by rewrite (lookup_weaken _ _ _ _ Hl Hsub).
Qed.

(** A result that can be read stays the same in a heap that only grew. *)
Lemma read_result_weaken h h' v r :
  h ⊆ h' → read_result h v = Some r → read_result h' v = Some r.
Proof.
  intros Hsub. unfold read_result. destruct v as [| | | | |l]; try done.
  destruct (h !! l) as [o|] eqn:Hl; [|done].
  rewrite (lookup_weaken _ _ _ _ Hl Hsub).
  destruct o as [props|]; [|done].
  destruct (props !! "valid") as [[| |b| | |]|]; try done.
  destruct (props !! "errors") as [e|]; [|done].
  destruct (props !! "warnings") as [ws|]; [|done].
  destruct (read_strings h e) as [es|] eqn:He; [|done].
  destruct (read_strings h ws) as [wss|] eqn:Hws; [|done].
  by rewrite (read_strings_weaken _ _ _ _ Hsub He),
       (read_strings_weaken _ _ _ _ Hsub Hws).
Qed.

(** X4. A later call of [load], on any instance and any config, and with
    the process environment changed in between, leaves the result of an
    earlier call as it was: results are never shared or overwritten. *)
Theorem earlier_results_survive this config this' config' w env' :
  let call1 := load this config w in
  let w1 := {| heap := heap (snd call1); console := console (snd call1);
               process_env := env' |} in
  let call2 := load this' config' w1 in
  settled_result (fst call1, snd call2) = settled_result call1
  ∧ is_Some (settled_result call1).
Proof.
  intros call1 w1 call2.
  destruct (load_run this config w) as (r & w' & Hrun & (Hres & _) & _).
  unfold call2, w1, call1. rewrite Hrun. cbn [fst snd settled_result].
  rewrite Hres. split; [|by eexists].
  eapply read_result_weaken; [|exact Hres].
  apply (load_frame this' config'
           {| heap := heap w'; console := console w'; process_env := env' |}).
Qed.

(** X5. Whether the production check runs is fixed at construction: for a
    config with [debug: true], the warning is there exactly when the
    [environment] option is ['production'], or is absent from the options
    while [NODE_ENV] was ['production'] when the instance was built. An
    [environment] given as [undefined], an unset or empty [NODE_ENV], and
    the [NODE_ENV] of the process at the time of the call never bring the
    warning. *)
Theorem environment_is_fixed_at_construction schema given w0 config w :
  debug_enabled (heap w) config = true →
  ∃ r, settled_result (load (constructor schema given w0) config w) = Some r
       ∧ (warnings r = [debug_warning] ↔
          match environment (default empty_options given) with
          | Given s => s = "production"
          | Undef => False
          | Missing => process_env w0 !! "NODE_ENV" = Some "production"
          end).
Proof.
  intros Hdebug. rewrite load_settles. eexists. split; [reflexivity|].
  assert (Hfail : read_failure config = None) by (by destruct config).
  unfold expected. rewrite Hfail, Hdebug.
  unfold is_production, constructor. cbn [options environment].
  destruct (environment (default empty_options given)) as [| |s]; cbn [spread].
  - unfold or_else. destruct (process_env w0 !! "NODE_ENV") as [s|]; simpl.
    + destruct (String.eqb_spec s "") as [->|Hne]; simpl.
      * split; discriminate.
      * destruct (String.eqb_spec s "production") as [->|Hne']; simpl; split;
          try done; congruence.
    + split; discriminate.
  - split; [discriminate|done].
  - destruct (String.eqb_spec s "production") as [->|Hne]; simpl; split; try done.
Qed.

Lemma environment_is_fixed_at_construction_witness :
  let w0 := example_world {["NODE_ENV" := "production"]} in
  let w := example_world {["NODE_ENV" := "test"]} in
  debug_enabled (heap w) debug_config = true
  ∧ ∃ r, settled_result (load (constructor debug_schema None w0) debug_config w)
         = Some r
         ∧ (warnings r = [debug_warning] ↔
            process_env w0 !! "NODE_ENV" = Some "production").
Proof.
  intros w0 w.
  assert (Hd : debug_enabled (heap w) debug_config = true) by reflexivity.
  split; [exact Hd|].
  exact (environment_is_fixed_at_construction debug_schema None w0 debug_config w Hd).
Defined.

(** X6. The result object of a call and its two arrays are three new,
    pairwise distinct cells: none of them is the config, or any object
    that existed before the call, and [errors] and [warnings] are never the
    same array. *)
Theorem load_result_is_fresh this config w :
  ∃ r le lw b w',
    load this config w = (Resolved (VRef r), w')
    ∧ heap w' !! r = Some (result_object (VBool b) (VRef le) (VRef lw))
    ∧ (∃ es, heap w' !! le = Some (OArray es))
    ∧ (∃ ws, heap w' !! lw = Some (OArray ws))
    ∧ heap w !! r = None ∧ heap w !! le = None ∧ heap w !! lw = None
    ∧ r ≠ le ∧ r ≠ lw ∧ le ≠ lw.
Proof.
  unfold load, async, load_body.
  unfold bind at 1. rewrite alloc_eq. unfold bind at 1. rewrite alloc_eq.
  set (le := fresh_loc (heap w)).
  set (h1 := <[le := OArray []]> (heap w)).
  world_simpl. set (lw := fresh_loc h1). set (h2 := <[lw := OArray []]> h1).
  assert (Hle : heap w !! le = None) by apply fresh_loc_None.
  assert (Hlw : h1 !! lw = None) by apply fresh_loc_None.
  assert (H1le : h1 !! le = Some (OArray [])) by apply lookup_insert_eq.
  assert (Hne : le ≠ lw) by (intros E; congruence).
  assert (H01 : heap w ⊆ h1) by apply alloc_subseteq.
  assert (H12 : h1 ⊆ h2) by apply alloc_subseteq.
  assert (H02 : heap w ⊆ h2) by (by etrans).
  assert (H2le : h2 !! le = Some (OArray [])) by (by eapply lookup_weaken).
  assert (H2lw : h2 !! lw = Some (OArray [])) by apply lookup_insert_eq.
  assert (Hlw0 : heap w !! lw = None) by (by apply fresh_loc_above).
  unfold try_catch. rewrite try_block_run by done.
  destruct (if is_production this then read_failure config else None) as [e|].
  - (* the handler builds two arrays of its own *)
    rewrite catch_block_run. world_simpl.
    set (l1 := fresh_loc h2). set (h3 := <[l1 := _]> h2).
    set (l2 := fresh_loc h3). set (h4 := <[l2 := _]> h3).
    set (l3 := fresh_loc h4).
    assert (H3l1 : h3 !! l1
                   = Some (OArray [VStr ("Validation failed: " +:+ err_message e)]))
      by apply lookup_insert_eq.
    assert (H23 : h2 ⊆ h3) by apply alloc_subseteq.
    assert (H34 : h3 ⊆ h4) by apply alloc_subseteq.
    assert (H4l1 : h4 !! l1
                   = Some (OArray [VStr ("Validation failed: " +:+ err_message e)]))
      by (by eapply lookup_weaken).
    assert (H4l2 : h4 !! l2 = Some (OArray [])) by apply lookup_insert_eq.
    assert (H4l3 : h4 !! l3 = None) by apply fresh_loc_None.
    assert (H3l2 : h3 !! l2 = None) by apply fresh_loc_None.
    exists l3, l1, l2, false. eexists. split; [reflexivity|]. world_simpl.
    split_and!.
    + apply lookup_insert_eq.
    + eexists. rewrite lookup_insert_ne by congruence. exact H4l1.
    + eexists. rewrite lookup_insert_ne by congruence. exact H4l2.
    + apply fresh_loc_above. etrans; [exact H02|]. by etrans.
    + by apply fresh_loc_above.
    + apply fresh_loc_above. by etrans.
    + congruence.
    + congruence.
    + congruence.
  - (* the result is built over the two local arrays *)
    cbv zeta. world_simpl.
    set (h3 := checked_heap this config lw h2). set (r := fresh_loc h3).
    assert (H3 : heap w ⊆ h3 ∧ (∃ es, h3 !! le = Some (OArray es))
                 ∧ (∃ ws, h3 !! lw = Some (OArray ws))).
    { unfold h3, checked_heap. destruct (_ && _).
      - split_and!.
        + unfold h2. rewrite insert_insert_eq. etrans; [exact H01|].
          by apply insert_subseteq.
        + eexists. by rewrite lookup_insert_ne.
        + eexists. apply lookup_insert_eq.
      - split_and!; eauto. }
    destruct H3 as (H03 & [es H3le] & [ws H3lw]).
    assert (Hr : h3 !! r = None) by apply fresh_loc_None.
    exists r, le, lw, true. eexists. split; [reflexivity|]. world_simpl.
    split_and!; try done.
    + apply lookup_insert_eq.
    + eexists. rewrite lookup_insert_ne by congruence. exact H3le.
    + eexists. rewrite lookup_insert_ne by congruence. exact H3lw.
    + by apply fresh_loc_above.
    + congruence.
    + congruence.
Qed.

End more.

End LoadMore.

(* ===================================================================== *)
(** ** The error classes *)
(* ===================================================================== *)

Module ErrorFacts.
Import Js Errors ErrorExamples.
Local Open Scope nat_scope.

Section pretty_print.
Context (stringify : list (string * Compiler.json) → string).
Implicit Types (this : SafeCfgValidationError) (e : Types.ValidationError)
  (es : list Types.ValidationError) (lines : list string).

(** The loop appends to [lines] the lines of each error in turn. *)
Lemma forEach_lines index es lines :
  forEach stringify index es lines
  = (lines ++ mjoin (imap (λ k, pushed stringify (index + k)) es))%list.
Proof.
  revert index lines.
  induction es as [|e es IH]; intros index lines; cbn [forEach].
  - by rewrite app_nil_r.
  - rewrite IH, imap_cons, <- app_assoc. f_equal.
    lazymatch goal with
    | |- _ = mjoin (?x :: ?l) => change (mjoin (x :: l)) with (x ++ mjoin l)%list
    end.
    rewrite Nat.add_0_r. f_equal. f_equal.
    apply imap_ext. intros k e' _. cbn [compose]. f_equal. lia.
Qed.

(** X7. [prettyPrint] lists the errors in their order and numbers them from
    1: the lines of the error at index [k], headed by the number [k + 1],
    its path and its code, come right after the heading line and the lines
    of the errors before it, and right before the lines of the errors after
    it. *)
Theorem prettyPrint_numbers_in_order this k e :
  errors this !! k = Some e →
  prettyPrint_lines stringify this
  = (heading this
     :: mjoin (imap (pushed stringify) (take k (errors this)))
     ++ pushed stringify k e
     ++ mjoin (imap (λ j, pushed stringify (S k + j)) (drop (S k) (errors this))))%list.
Proof.
  intros Hk. unfold prettyPrint_lines. fold (heading this).
  rewrite forEach_lines. cbn [app Nat.add]. f_equal.
  rewrite <- (take_drop_middle _ _ _ Hk) at 1.
  assert (Hlen : length (take k (errors this)) = k).
  { rewrite length_take. apply lookup_lt_Some in Hk. lia. }
  generalize (pushed stringify). intros f.
  rewrite imap_app, join_app, Hlen, imap_cons. f_equal.
  lazymatch goal with
  | |- mjoin (?x :: ?l) = _ => change (mjoin (x :: l)) with (x ++ mjoin l)%list
  end.
  rewrite Nat.add_0_r. f_equal. f_equal.
  apply imap_ext. intros j e' _. cbn [compose]. f_equal. lia.
Qed.

Lemma pushed_without_empty_fix k e :
  pushed stringify k (without_empty_fix e) = pushed stringify k e.
Proof.
  unfold pushed, without_empty_fix, truthy. simpl.
  destruct (Types.suggestedFix e) as [s|]; [|done].
  destruct (s =? "")%string eqn:E; simpl; by rewrite ?E.
Qed.

(** X8. An empty [suggestedFix] is not printed: [prettyPrint] gives the
    same text for errors whose [suggestedFix] is the empty string as for the
    same errors with no [suggestedFix] at all. *)
Theorem empty_fix_is_not_printed this :
  prettyPrint stringify
    {| validation_super := validation_super this;
       errors := without_empty_fix <$> errors this |}
  = prettyPrint stringify this.
Proof.
  unfold prettyPrint, prettyPrint_lines. simpl. rewrite length_fmap. f_equal.
  rewrite !forEach_lines. f_equal. f_equal. rewrite imap_fmap.
  apply imap_ext. intros k e _. apply pushed_without_empty_fix.
Qed.

End pretty_print.

Lemma prettyPrint_numbers_in_order_witness :
  let this := new_SafeCfgValidationError [host_missing; port_mistyped] None in
  errors this !! 1 = Some port_mistyped
  ∧ prettyPrint_lines braces this
    = (heading this
       :: mjoin (imap (pushed braces) (take 1 (errors this)))
       ++ pushed braces 1 port_mistyped
       ++ mjoin (imap (λ j, pushed braces (2 + j)) (drop 2 (errors this))))%list.
Proof.
  intros this.
  assert (H : errors this !! 1 = Some port_mistyped) by reflexivity.
  split; [exact H|].
  exact (prettyPrint_numbers_in_order braces this 1 port_mistyped H).
Defined.

(** The text of the example. *)
Example prettyPrint_example :
  prettyPrint braces (new_SafeCfgValidationError [host_missing; port_mistyped] None)
  = "🔴 Configuration Validation Failed (2 errors)

1. db.host [REQUIRED_FIELD_MISSING]
   Message: is required
   Details: {}

2. db.port [INVALID_TYPE]
   Message: is not a number
   Fix: use 5432"%string.
Proof. vm_compute. reflexivity. Qed.

(** X9. A [SafeCfgValidationError] never has an empty message: a message
    that is omitted or empty is replaced by the text that counts the
    errors, any other message is kept. Its name, its code and the errors
    under [details] are those of the class. *)
Theorem validation_error_message errors (message : option string) :
  let e := new_SafeCfgValidationError errors message in
  let fallback :=
    ("Configuration validation failed with " +:+ pretty (length errors)
       +:+ " error(s)")%string in
  err_message (error (validation_super e)) ≠ ""%string
  ∧ err_message (error (validation_super e))
    = match message with
      | Some s => if decide (s = ""%string) then fallback else s
      | None => fallback
      end
  ∧ err_name (error (validation_super e)) = "SafeCfgValidationError"%string
  ∧ code (validation_super e) = "VALIDATION_FAILED"%string
  ∧ details (validation_super e)
    = Some [("errors"%string, Types.DetailErrors (Errors.errors e))].
Proof.
  intros e fallback. split_and!; try reflexivity.
  - simpl. destruct message as [s|]; simpl; [|done].
    by destruct (String.eqb_spec s "").
  - simpl. destruct message as [s|]; simpl; [|done].
    destruct (String.eqb_spec s ""); by case_decide.
Qed.

(** X10. The message of a [SourceLoadError] names its source and nothing
    else: two such errors have the same message exactly when they were
    built for the same source, whatever the original errors. *)
Theorem source_error_names_its_source s1 s2 (e1 e2 : js_error) :
  err_message (error (source_super (new_SourceLoadError s1 e1)))
  = err_message (error (source_super (new_SourceLoadError s2 e2)))
  ↔ source (new_SourceLoadError s1 e1) = source (new_SourceLoadError s2 e2).
Proof.
  simpl. split; [|by intros ->].
  intros H. by simplify_eq.
Qed.

End ErrorFacts.


(* ===================================================================== *)
(** ** [load] on objects with accessors: what the handler lets through *)
(* ===================================================================== *)

Module FullFacts.
Import Js Cfg Full.

Section store.
Implicit Types (h : gmap loc obj) (l : loc) (o : obj) (w : world).

Lemma full_fresh_loc_None h : h !! fresh_loc h = None.
Proof. apply not_elem_of_dom. unfold fresh_loc. apply (is_fresh (dom h)). Qed.

Lemma full_alloc_subseteq h o : h ⊆ <[fresh_loc h := o]> h.
Proof. apply insert_subseteq, full_fresh_loc_None. Qed.

Lemma full_fresh_loc_above h h' : h ⊆ h' → h !! fresh_loc h' = None.
Proof.
  intros Hsub. destruct (h !! fresh_loc h') as [o|] eqn:E; [|done].
  eapply lookup_weaken in E; [|exact Hsub]. by rewrite full_fresh_loc_None in E.
Qed.

Lemma full_alloc_eq o w :
  alloc o w =
  (Ok (fresh_loc (heap w)), with_heap (<[fresh_loc (heap w) := o]> (heap w)) w).
Proof. reflexivity. Qed.

(** The read of [debug] does not see a new array. *)
Lemma lookup_debug_alloc v l elems h :
  h !! l = None →
  lookup_prop (<[l := OArray elems]> h) v "debug" = lookup_prop h v "debug".
Proof.
  intros Hl. destruct v as [| | | | |l']; try reflexivity. unfold lookup_prop.
  destruct (decide (l = l')) as [->|Hne].
  - rewrite lookup_insert_eq, Hl. reflexivity.
  - by rewrite lookup_insert_ne.
Qed.

End store.

Section run.
Implicit Types (this : SafeCfg) (config : val) (w : world) (h : gmap loc obj).

Ltac world_simpl :=
  cbn [heap console process_env with_heap with_console logged].

Lemma lookup_prop_frame h h' config key :
  h ⊆ h' → is_object h config →
  lookup_prop h' config key = lookup_prop h config key.
Proof.
  intros Hsub Hobj. destruct config as [| | | | |l]; try done.
  destruct Hobj as [props Hl]. unfold lookup_prop.
  by rewrite (lookup_weaken _ _ _ _ Hl Hsub), Hl.
Qed.

Lemma absent_frame h h' v path :
  h ⊆ h' → absent h v path = true → absent h' v path = true.
Proof.
  intros Hsub. revert v. induction path as [|key rest IH]; intros v; [done|].
  destruct v as [| | | | |l]; try done. simpl.
  destruct (h !! l) as [o|] eqn:Hl; [|done].
  rewrite (lookup_weaken _ _ _ _ Hl Hsub).
  destruct o as [props|elems]; [|done].
  destruct (props !! key) as [[v'|get]|]; auto.
Qed.

Lemma absent_is_object h v path : absent h v path = true → is_object h v.
Proof.
  destruct path as [|key rest]; [done|]. destruct v as [| | | | |l]; try done.
  simpl. destruct (h !! l) as [[props|elems]|]; try done. by exists props.
Qed.

Lemma full_read_result_object h l b le lw es ws :
  h !! l = Some (result_object (VBool b) (VRef le) (VRef lw)) →
  h !! le = Some (OArray (VStr <$> es)) →
  h !! lw = Some (OArray (VStr <$> ws)) →
  read_result h (VRef l) = Some {| valid := b; errors := es; warnings := ws |}.
Proof.
  intros Hl Hle Hlw. unfold read_result, result_object in *. rewrite Hl.
  simplify_map_eq.
  assert (Hs : ∀ xs : list string, mapM as_string (VStr <$> xs) = Some xs).
  { intros xs. apply mapM_Some. induction xs; constructor; simpl; auto. }
  by rewrite !Hs.
Qed.

Lemma full_own_keys_result h l v e ws :
  h !! l = Some (result_object v e ws) →
  own_keys h (VRef l) = Some ({["valid"; "errors"; "warnings"]} : gset string).
Proof. intros Hl. unfold own_keys, result_object in *. rewrite Hl. reflexivity. Qed.

Lemma full_result_allocated (h0 h : gmap loc obj) b le lw es ws :
  h0 ⊆ h →
  h !! le = Some (OArray (VStr <$> es)) →
  h !! lw = Some (OArray (VStr <$> ws)) →
  let r := fresh_loc h in
  let h' := <[r := result_object (VBool b) (VRef le) (VRef lw)]> h in
  read_result h' (VRef r) = Some {| valid := b; errors := es; warnings := ws |}
  ∧ own_keys h' (VRef r) = Some ({["valid"; "errors"; "warnings"]} : gset string)
  ∧ h0 ⊆ h'
  ∧ h0 !! r = None.
Proof.
  intros Hsub Hle Hlw r h'.
  assert (Hh : h ⊆ h') by apply full_alloc_subseteq.
  split_and!.
  - eapply full_read_result_object.
    + apply lookup_insert_eq.
    + eapply lookup_weaken; [exact Hle|exact Hh].
    + eapply lookup_weaken; [exact Hlw|exact Hh].
  - eapply full_own_keys_result. apply lookup_insert_eq.
  - by etrans.
  - by apply full_fresh_loc_above.
Qed.

Lemma full_validateForProduction_run this config lw ws w :
  heap w !! lw = Some (OArray ws) →
  validateForProduction this config (VRef lw) w =
    match lookup_prop (heap w) config "debug" with
    | Throw t => (Throw t, w)
    | Ok debug =>
        if strict_eq debug (VBool true)
        then (Ok tt, with_heap (<[lw := OArray (ws ++ [VStr debug_warning])]> (heap w)) w)
        else (Ok tt, w)
    end.
Proof.
  intros Hlw. unfold validateForProduction, bind, get_prop.
  destruct (lookup_prop (heap w) config "debug") as [debug|t]; [|done].
  destruct (strict_eq debug (VBool true)); [|done].
  unfold array_push. by rewrite Hlw.
Qed.

Lemma full_try_block_run this config le lw w :
  heap w !! le = Some (OArray []) →
  heap w !! lw = Some (OArray []) →
  le ≠ lw →
  try_block this config le lw w =
    match check_throws this config (heap w) with
    | Some t => (Throw t, logged w)
    | None =>
        let h1 := checked_heap this config lw (heap w) in
        (Ok (VRef (fresh_loc h1)),
         with_heap (<[fresh_loc h1 := result_object (VBool true) (VRef le) (VRef lw)]> h1)
                   (logged w))
    end.
Proof.
  intros Hle Hlw Hne.
  unfold try_block, validateSchema, console_log, checked_heap, check_throws.
  unfold bind at 1. unfold bind at 1.
  destruct (is_production this); world_simpl.
  - rewrite (full_validateForProduction_run _ _ _ []) by done. world_simpl.
    destruct (lookup_prop (heap w) config "debug") as [debug|t]; [|reflexivity].
    destruct (strict_eq debug (VBool true));
      unfold bind, get_prop, lookup_prop; world_simpl.
    + rewrite lookup_insert_ne by done. rewrite Hle. reflexivity.
    + rewrite Hle. reflexivity.
  - unfold bind, get_prop, lookup_prop, ret; world_simpl. rewrite Hle. reflexivity.
Qed.

Lemma arrays_heap_facts w :
  errors_loc w ≠ warnings_loc w
  ∧ heap w ⊆ <[errors_loc w := OArray []]> (heap w)
  ∧ heap w ⊆ arrays_heap w
  ∧ arrays_heap w !! errors_loc w = Some (OArray [])
  ∧ arrays_heap w !! warnings_loc w = Some (OArray []).
Proof.
  unfold arrays_heap.
  set (le := errors_loc w). set (h1 := <[le := OArray []]> (heap w)).
  assert (Hlw : h1 !! warnings_loc w = None) by apply full_fresh_loc_None.
  assert (Hne : le ≠ warnings_loc w).
  { intros E. rewrite <- E in Hlw. unfold h1 in Hlw. by rewrite lookup_insert_eq in Hlw. }
  assert (H01 : heap w ⊆ h1) by apply full_alloc_subseteq.
  split_and!; [done|done| | |].
  - etrans; [exact H01|]. by apply insert_subseteq.
  - rewrite lookup_insert_ne by done. apply lookup_insert_eq.
  - apply lookup_insert_eq.
Qed.

Lemma lookup_debug_arrays config w :
  lookup_prop (arrays_heap w) config "debug" = lookup_prop (heap w) config "debug".
Proof.
  unfold arrays_heap. rewrite !lookup_debug_alloc; [done|apply full_fresh_loc_None|].
  apply full_fresh_loc_None.
Qed.

(** The body of [load], run. *)
Lemma load_body_run this config w :
  load_body this config w =
    let w2 := logged (with_heap (arrays_heap w) w) in
    match check_throws this config (heap w) with
    | Some t => catch_block t w2
    | None =>
        let h3 := checked_heap this config (warnings_loc w) (arrays_heap w) in
        (Ok (VRef (fresh_loc h3)),
         with_heap (<[fresh_loc h3 := result_object (VBool true)
                                        (VRef (errors_loc w)) (VRef (warnings_loc w))]> h3)
                   w2)
    end.
Proof.
  destruct (arrays_heap_facts w) as (Hne & _ & _ & Hle & Hlw).
  unfold load_body. unfold bind at 1. rewrite full_alloc_eq. unfold bind at 1.
  rewrite full_alloc_eq. world_simpl. fold (errors_loc w). fold (warnings_loc w).
  fold (arrays_heap w). unfold try_catch. rewrite full_try_block_run by done.
  world_simpl. unfold check_throws. rewrite lookup_debug_arrays.
  fold (check_throws this config (heap w)).
  by destruct (check_throws this config (heap w)).
Qed.

Lemma full_catch_block_run t w :
  catch_block t w =
    match message_of t with
    | Throw t' => (Throw t', w)
    | Ok message =>
        let l1 := fresh_loc (heap w) in
        let h1 := <[l1 := OArray [VStr ("Validation failed: " +:+ template message)]]>
                    (heap w) in
        let l2 := fresh_loc h1 in
        let h2 := <[l2 := OArray []]> h1 in
        let l3 := fresh_loc h2 in
        (Ok (VRef l3),
         with_heap (<[l3 := result_object (VBool false) (VRef l1) (VRef l2)]> h2) w)
    end.
Proof. unfold catch_block, bind at 1, lift. by destruct (message_of t). Qed.

Lemma full_load_run this config w :
  match expected this (heap w) config with
  | Settles res =>
      ∃ r w', load this config w = (Resolved (VRef r), w')
              ∧ resolved_post w res r w'
  | Rejects t =>
      ∃ w', load this config w = (Rejected t, w') ∧ rejected_post w w'
  end.
Proof.
  destruct (arrays_heap_facts w) as (Hne & H01 & H02 & H2le & H2lw).
  unfold load, async. rewrite load_body_run. cbv zeta.
  unfold expected, check_throws, checked_heap, resolved_post, rejected_post.
  rewrite lookup_debug_arrays.
  set (le := errors_loc w) in *. set (lw := warnings_loc w) in *.
  set (h2 := arrays_heap w) in *.
  destruct (is_production this) eqn:Hprod;
    [destruct (lookup_prop (heap w) config "debug") as [debug|t] eqn:Hread;
       [destruct (strict_eq debug (VBool true))|]|].
  - (* the warning was pushed *)
    eexists _, _. split; [reflexivity|]. world_simpl. split; [|by split].
    apply (full_result_allocated (heap w) _ true le lw [] [_]).
    + unfold h2, arrays_heap. rewrite insert_insert_eq. etrans; [exact H01|].
      apply insert_subseteq. apply full_fresh_loc_None.
    + by rewrite lookup_insert_ne.
    + apply lookup_insert_eq.
  - eexists _, _. split; [reflexivity|]. world_simpl. split; [|by split].
    by apply (full_result_allocated (heap w) h2 true le lw [] []).
  - (* the handler ran *)
    rewrite full_catch_block_run. destruct (message_of t) as [message|t'].
    + cbv zeta. world_simpl.
      set (l1 := fresh_loc h2). set (h3 := <[l1 := _]> h2).
      set (l2 := fresh_loc h3). set (h4 := <[l2 := _]> h3).
      eexists _, _. split; [reflexivity|]. world_simpl. split; [|by split].
      apply (full_result_allocated (heap w) h4 false l1 l2 [_] []).
      * etrans; [exact H02|]. etrans; apply full_alloc_subseteq.
      * unfold h4. rewrite lookup_insert_ne; [apply lookup_insert_eq|].
        intros E. pose proof (full_fresh_loc_None h3) as Hf. fold l2 in Hf.
        rewrite E in Hf. unfold h3 in Hf. by rewrite lookup_insert_eq in Hf.
      * apply lookup_insert_eq.
    + (* reading the message threw: the promise rejects *)
      eexists. split; [reflexivity|]. world_simpl. by split_and!.
  - eexists _, _. split; [reflexivity|]. world_simpl. split; [|by split].
    by apply (full_result_allocated (heap w) h2 true le lw [] []).
Qed.

(** The caller's view of it. *)
Lemma full_load_settles this config w :
  settled (load this config w) = Some (expected this (heap w) config).
Proof.
  pose proof (full_load_run this config w) as Hrun.
  destruct (expected this (heap w) config) as [res|t].
  - destruct Hrun as (r & w' & Hrun & (Hres & _) & _).
    rewrite Hrun. unfold settled. by rewrite Hres.
  - by destruct Hrun as (w' & -> & _).
Qed.

Lemma full_load_frame this config w : heap w ⊆ heap (snd (load this config w)).
Proof.
  pose proof (full_load_run this config w) as Hrun.
  destruct (expected this (heap w) config) as [res|t].
  - by destruct Hrun as (r & w' & -> & (_ & _ & Hsub & _) & _).
  - by destruct Hrun as (w' & -> & Hsub & _).
Qed.

Lemma full_raised_eq this config w :
  raised this config w = check_throws this config (heap w).
Proof.
  destruct (arrays_heap_facts w) as (Hne & _ & _ & Hle & Hlw).
  unfold raised. unfold bind at 1. rewrite full_alloc_eq. unfold bind at 1.
  rewrite full_alloc_eq. world_simpl. fold (errors_loc w). fold (warnings_loc w).
  fold (arrays_heap w). rewrite full_try_block_run by done.
  world_simpl. unfold check_throws. rewrite lookup_debug_arrays.
  by destruct (is_production this), (lookup_prop (heap w) config "debug").
Qed.


(** On a store without accessors the two models settle a call the same
    way. *)
Lemma expected_lift this (h : gmap loc Js.obj) config :
  expected this (lift_obj <$> h) config = Settles (Cfg.expected this h config).
Proof.
  unfold expected, Cfg.expected. destruct (is_production this); [|done].
  destruct config as [| | | | |l]; try reflexivity.
  unfold lookup_prop, read_failure, debug_enabled. rewrite lookup_fmap.
  destruct (h !! l) as [[props|elems]|]; try reflexivity.
  cbn [fmap option_fmap option_map lift_obj read_property].
  rewrite lookup_fmap. by destruct (props !! "debug").
Qed.

Lemma plain_store_agrees this config (w : Js.world) :
  settled (load this config (lift_world w))
  = Settles <$> settled_result (Cfg.load this config w).
Proof.
  rewrite full_load_settles, LoadFacts.load_settles.
  unfold lift_world. world_simpl. by rewrite expected_lift.
Qed.

(** Reading the message fails on the values without properties and on the
    objects that fail it themselves. *)
Lemma message_of_unreadable t :
  (∃ t', message_of t = Throw t') ↔ unreadable t.
Proof.
  unfold unreadable. split.
  - intros [t' Ht]. destruct t; try done; eauto.
  - intros [->|[->|[t' ->]]]; simpl; eauto.
Qed.

(** What the handler makes of a failure that has a message to read. *)
Lemma load_reports_what_it_can_read this config w t message :
  raised this config w = Some t →
  message_of t = Ok message →
  settled (load this config w)
  = Some (Settles {| valid := false;
                     errors := ["Validation failed: " +:+ template message];
                     warnings := [] |}).
Proof.
  rewrite full_raised_eq, full_load_settles. unfold check_throws, expected.
  destruct (is_production this); [|done].
  destruct (lookup_prop (heap w) config "debug"); [done|].
  intros [= ->] ->. done.
Qed.

End run.

Section simulation.
Implicit Types (this : SafeCfg) (config : val) (w : Js.world).

Lemma fresh_loc_lift (h : gmap loc Js.obj) :
  fresh_loc (lift_obj <$> h) = Js.fresh_loc h.
Proof. unfold fresh_loc, Js.fresh_loc. by rewrite dom_fmap_L. Qed.

Lemma result_object_lift valid errors warnings :
  lift_obj (Cfg.result_object valid errors warnings)
  = result_object valid errors warnings.
Proof.
  unfold Cfg.result_object, result_object, lift_obj.
  by rewrite !fmap_insert, fmap_empty.
Qed.

Lemma lookup_prop_lift (h : gmap loc Js.obj) v key (u : Js.world) :
  Js.heap u = h →
  (lookup_prop (lift_obj <$> h) v key, lift_world u)
  = lift_outcome (Js.get_prop v key u).
Proof.
  intros <-. unfold lookup_prop, Js.get_prop.
  destruct v as [| | | | s|l]; try reflexivity.
  - destruct (String.eqb key "length"); [done|].
    destruct (array_index key) as [i|]; [|done]. by destruct (String.get i s).
  - rewrite lookup_fmap. destruct (Js.heap u !! l) as [[props|elems]|]; simpl.
    + rewrite lookup_fmap. by destruct (props !! key).
    + destruct (String.eqb key "length"); [done|].
      by destruct (array_index key).
    + done.
Qed.

Lemma sim_ret {A} (a : A) w : sim w (Js.ret a) (ret a).
Proof. reflexivity. Qed.

Lemma sim_bind {A B} w (m : Js.M A) (m' : M A) (k : A → Js.M B) (k' : A → M B) :
  sim w m m' →
  (∀ a w1, m w = (Js.Ok a, w1) → sim w1 (k a) (k' a)) →
  sim w (Js.bind m k) (bind m' k').
Proof.
  unfold sim, Js.bind, bind. intros -> Hk.
  destruct (m w) as [[a|e] w1]; simpl; [by apply Hk|done].
Qed.

Lemma sim_alloc o w : sim w (Js.alloc o) (alloc (lift_obj o)).
Proof.
  unfold sim, Js.alloc, alloc, lift_world, lift_outcome, with_heap, Js.with_heap.
  cbn [heap Js.heap Js.console Js.process_env console process_env].
  rewrite fresh_loc_lift. unfold lift_world.
  cbn [Js.heap Js.console Js.process_env]. by rewrite fmap_insert.
Qed.

Lemma sim_console_log s w : sim w (Js.console_log s) (console_log s).
Proof. reflexivity. Qed.

Lemma sim_get_prop v key w : sim w (Js.get_prop v key) (get_prop v key).
Proof. unfold sim, get_prop. by apply lookup_prop_lift. Qed.

Lemma sim_array_push callee l elems x w :
  Js.heap w !! l = Some (Js.OArray elems) →
  sim w (Js.array_push (VRef l) x) (array_push callee (VRef l) x).
Proof.
  intros Hl. unfold sim, Js.array_push, array_push, lift_world.
  cbn [heap Js.heap]. rewrite lookup_fmap, Hl.
  cbn [fmap option_fmap option_map lift_obj lift_outcome with_heap Js.with_heap
       heap Js.heap Js.console Js.process_env console process_env].
  unfold lift_world, with_heap, Js.with_heap.
  cbn [heap console process_env Js.heap Js.console Js.process_env].
  by rewrite fmap_insert.
Qed.

Lemma sim_validateForProduction this config lw elems w :
  Js.heap w !! lw = Some (Js.OArray elems) →
  sim w (Cfg.validateForProduction this config (VRef lw))
        (validateForProduction this config (VRef lw)).
Proof.
  intros Hlw. apply sim_bind; [apply sim_get_prop|].
  intros debug w1 Hread.
  assert (w1 = w) as ->.
  { unfold Js.get_prop in Hread.
    repeat (match type of Hread with
            | context [match ?x with _ => _ end] => destruct x
            end; try done); by injection Hread. }
  destruct (strict_eq debug (VBool true)); [|apply sim_ret].
  by eapply sim_array_push.
Qed.

Lemma sim_try_block this config le lw elems w :
  Js.heap w !! lw = Some (Js.OArray elems) →
  sim w (Cfg.try_block this config le lw) (try_block this config le lw).
Proof.
  intros Hlw. apply sim_bind; [apply sim_console_log|].
  intros [] w1 [= <-]. apply sim_bind.
  { destruct (is_production this); [|apply sim_ret].
    by eapply sim_validateForProduction. }
  intros [] w2 _. apply sim_bind; [apply sim_get_prop|].
  intros len w3 _. apply sim_bind.
  { rewrite <- result_object_lift. apply sim_alloc. }
  intros result w4 _. apply sim_ret.
Qed.

Lemma sim_catch_block e w :
  sim w (Cfg.catch_block e) (catch_block (ThrownError e)).
Proof.
  unfold Cfg.catch_block, catch_block.
  unfold bind at 1. unfold lift, message_of, template. simpl.
  apply sim_bind; [apply (sim_alloc (Js.OArray _))|].
  intros errors w1 _. apply sim_bind; [apply (sim_alloc (Js.OArray _))|].
  intros warnings w2 _. apply sim_bind.
  { rewrite <- result_object_lift. apply sim_alloc. }
  intros result w3 _. apply sim_ret.
Qed.

Lemma sim_load_body this config w :
  sim w (Cfg.load_body this config) (load_body this config).
Proof.
  apply sim_bind; [apply (sim_alloc (Js.OArray _))|].
  intros errors w1 _. apply sim_bind; [apply (sim_alloc (Js.OArray _))|].
  intros warnings w2 [= <- <-].
  unfold sim, Js.try_catch, try_catch.
  rewrite (sim_try_block this config errors _ [] _)
    by (simpl; apply lookup_insert_eq).
  destruct (Cfg.try_block _ _ _ _ _) as [[v|e] w3]; simpl; [done|].
  apply sim_catch_block.
Qed.

(** On a store without accessors a call runs in [Full] as it runs in
    [Cfg]: same settlement, same heap, same console. *)
Lemma load_lift this config w :
  load this config (lift_world w) = lift_promise (Cfg.load this config w).
Proof.
  unfold load, Cfg.load, async, Js.async.
  rewrite (sim_load_body this config w).
  by destruct (Cfg.load_body this config w) as [[v|e] w'].
Qed.

End simulation.

Section claims.
Import Examples FullExamples.

(** Claim C5 fails by a defect of the handler. In production, on the config
    [{ get debug() { throw null } }], the [try] block of [load] raises
    [null]; the handler then reads [error.message] of [null], which throws
    a [TypeError], and the promise of [load] rejects with it: no result is
    built, where the claim has [load] resolve to an invalid result with one
    synthetic entry. *)
Theorem load_rejects_when_null_is_thrown :
  let this := production_instance in
  let w := accessor_world ∅ in
  raised this throws_null_config w = Some ThrownNull
  ∧ fst (load this throws_null_config w)
    = Rejected (ThrownError
        (TypeError "Cannot read properties of null (reading 'message')"))
  ∧ ∀ r, settled (load this throws_null_config w) ≠ Some (Settles r).
Proof.
  intros this w.
  assert (Hexp : expected this (heap w) throws_null_config
                 = Rejects (ThrownError (cannot_read "null" "message")))
    by (vm_compute; reflexivity).
  pose proof (full_load_run this throws_null_config w) as Hrun.
  rewrite Hexp in Hrun. destruct Hrun as (w' & Hrun & _).
  split_and!.
  - rewrite full_raised_eq. vm_compute. reflexivity.
  - by rewrite Hrun.
  - intros r. by rewrite Hrun.
Qed.

(** What the handler makes of the other values a getter may throw: a string
    has no [message], an [Error] has one, [undefined] fails the handler as
    [null] does, and so does an object whose [message] throws. *)
Example thrown_string_has_no_message :
  settled (load production_instance throws_string_config (accessor_world ∅))
  = Some (Settles {| valid := false;
                     errors := ["Validation failed: undefined"];
                     warnings := [] |}).
Proof. rewrite full_load_settles. vm_compute. reflexivity. Qed.

Example thrown_error_is_reported :
  settled (load production_instance throws_error_config (accessor_world ∅))
  = Some (Settles {| valid := false;
                     errors := ["Validation failed: boom"];
                     warnings := [] |}).
Proof. rewrite full_load_settles. vm_compute. reflexivity. Qed.

Example thrown_undefined_rejects :
  settled (load production_instance throws_undefined_config (accessor_world ∅))
  = Some (Rejects (ThrownError
       (TypeError "Cannot read properties of undefined (reading 'message')"))).
Proof. rewrite full_load_settles. vm_compute. reflexivity. Qed.

Example thrown_object_may_fail_the_handler :
  settled (load production_instance throws_failing_config (accessor_world ∅))
  = Some (Rejects (ThrownStr "inner")).
Proof. rewrite full_load_settles. vm_compute. reflexivity. Qed.

(** A getter that returns [true] is a [debug] like any other. *)
Example getter_true_warns :
  settled (load production_instance getter_config (accessor_world ∅))
  = Some (Settles {| valid := true; errors := [];
                     warnings := [debug_warning] |}).
Proof. rewrite full_load_settles. vm_compute. reflexivity. Qed.

(** Outside production nothing is read, and nothing can be thrown. *)
Example thrown_null_outside_production :
  settled (load (constructor db_schema None (example_world ∅))
                throws_null_config (accessor_world ∅))
  = Some (Settles {| valid := true; errors := []; warnings := [] |}).
Proof. rewrite full_load_settles. vm_compute. reflexivity. Qed.


(** Claim C6, amended. For every instance, whatever its schema, and every
    object config from which the field at [path] is absent and on which the
    [try] block of [load] raises nothing, [load] resolves to a valid result
    with no error; the result has the properties [valid], [errors] and
    [warnings] and no other, so it carries no configuration; and the field
    is still absent from the config after the call. For the schema
    [{db: {host: {type: 'string', required: true},
           port: {type: 'number', default: 5432}}}] and the config
    [{db: {host: 'localhost'}}] the result is valid, without error or
    warning, and [config.db.port] reads [undefined] after the call. *)
Theorem no_default_is_applied :
  (∀ this config path w,
     absent (heap w) config path = true →
     raised this config w = None →
     ∃ r w' ws,
       load this config w = (Resolved r, w')
       ∧ read_result (heap w') r
         = Some {| valid := true; errors := []; warnings := ws |}
       ∧ own_keys (heap w') r
         = Some ({["valid"; "errors"; "warnings"]} : gset string)
       ∧ absent (heap w') config path = true)
  ∧ (∀ opts env,
       let this := constructor db_schema opts (example_world env) in
       let w := lift_world (example_world env) in
       absent (heap w) db_host_config ["db"; "port"] = true
       ∧ ∃ r w',
           load this db_host_config w = (Resolved r, w')
           ∧ read_result (heap w') r
             = Some {| valid := true; errors := []; warnings := [] |}
           ∧ lookup_path (heap w') db_host_config ["db"; "port"] = Ok VUndefined).
Proof.
  split.
  - intros this config path w Habs Hraised.
    pose proof (full_load_run this config w) as Hrun.
    rewrite full_raised_eq in Hraised.
    assert (∃ ws, expected this (heap w) config
                  = Settles {| valid := true; errors := []; warnings := ws |})
      as [ws Hexp].
    { unfold expected, check_throws in *. destruct (is_production this); eauto.
      destruct (lookup_prop (heap w) config "debug"); [eauto|done]. }
    rewrite Hexp in Hrun.
    destruct Hrun as (r & w' & Hrun & (Hres & Hkeys & Hsub & _) & _).
    exists (VRef r), w', ws. split_and!; [done..|].
    by apply (absent_frame (heap w)).
  - intros opts env this w.
    assert (Habs : absent (heap w) db_host_config ["db"; "port"] = true)
      by (vm_compute; reflexivity).
    split; [done|].
    pose proof (full_load_run this db_host_config w) as Hrun.
    assert (Hexp : expected this (heap w) db_host_config
                   = Settles {| valid := true; errors := []; warnings := [] |}).
    { unfold expected. destruct (is_production this); [|done].
      by vm_compute. }
    rewrite Hexp in Hrun.
    destruct Hrun as (r & w' & Hrun & (Hres & _ & Hsub & _) & _).
    exists (VRef r), w'. split_and!; [done..|].
    assert (Hobj : ∀ l props, heap w !! l = Some (OObject props) →
                     is_object (heap w) (VRef l)) by (intros l props ?; by exists props).
    cbn [lookup_path].
    rewrite (lookup_prop_frame (heap w) _ db_host_config) by
      (done || (eapply Hobj; vm_compute; reflexivity)).
    replace (lookup_prop (heap w) db_host_config "db") with (Ok (VRef 8))
      by (vm_compute; reflexivity).
    rewrite (lookup_prop_frame (heap w) _ (VRef 8)) by
      (done || (eapply Hobj; vm_compute; reflexivity)).
    vm_compute. reflexivity.
Qed.

Lemma no_default_is_applied_witness :
  ∃ r w' ws,
    load production_instance db_host_config (lift_world (example_world ∅))
    = (Resolved r, w')
    ∧ read_result (heap w') r
      = Some {| valid := true; errors := []; warnings := ws |}
    ∧ own_keys (heap w') r
      = Some ({["valid"; "errors"; "warnings"]} : gset string)
    ∧ absent (heap w') db_host_config ["db"; "port"] = true.
Proof.
  apply (proj1 no_default_is_applied production_instance db_host_config
               ["db"; "port"] (lift_world (example_world ∅)));
    vm_compute; reflexivity.
Defined.

(** X3. How a call settles is decided by the instance's environment and by
    the read of [config.debug]. The promise rejects exactly when the
    environment is ['production'] and the read throws a value the handler
    cannot take the message of: [null], [undefined], or an object whose
    [message] cannot be read or turned into a string. Whenever the promise
    resolves, the result can be read back, and it is invalid exactly when
    the environment is ['production'] and the read threw. *)
Theorem settlement_of_load this config w :
  let read := lookup_prop (heap w) config "debug" in
  ((∃ t w', load this config w = (Rejected t, w'))
   ↔ environment (options this) = Given "production"
     ∧ ∃ t0, read = Throw t0
             ∧ (t0 = ThrownNull ∨ t0 = ThrownUndefined
                ∨ ∃ t', t0 = ThrownFailing t'))
  ∧ (∀ v w', load this config w = (Resolved v, w') →
       ∃ res, read_result (heap w') v = Some res
              ∧ (valid res = false
                 ↔ environment (options this) = Given "production"
                   ∧ ∃ t, read = Throw t)).
Proof.
  intros read.
  assert (Hprod : is_production this = true
                  ↔ environment (options this) = Given "production").
  { unfold is_production. destruct (environment (options this)) as [| |s];
      [split; done..|].
    rewrite String.eqb_eq. split; [by intros ->|by intros [= ->]]. }
  pose proof (full_load_run this config w) as Hrun.
  unfold expected in Hrun. fold read in Hrun.
  split.
  - split.
    + intros (t & w'' & Hload). rewrite <- Hprod.
      destruct (is_production this);
        [|by destruct Hrun as (? & ? & Hrun & _); rewrite Hrun in Hload].
      destruct read as [debug|t0];
        [by destruct Hrun as (? & ? & Hrun & _); rewrite Hrun in Hload|].
      split; [done|]. exists t0. split; [done|].
      apply message_of_unreadable.
      destruct (message_of t0) as [message|t']; [|by eauto].
      by destruct Hrun as (? & ? & Hrun & _); rewrite Hrun in Hload.
    + intros (Hp%Hprod & t0 & Hread & [t' Ht0]%message_of_unreadable).
      rewrite Hp, Hread, Ht0 in Hrun.
      destruct Hrun as (w'' & Hrun & _); eauto.
  - intros v w' Hload. setoid_rewrite <- Hprod.
    destruct (is_production this).
    + destruct read as [debug|t0].
      * destruct Hrun as (r & w'' & Hrun & (Hres & _) & _).
        rewrite Hrun in Hload. injection Hload as <- <-.
        eexists. split; [exact Hres|]. simpl. split; [done|].
        by intros [_ [t ?]].
      * destruct (message_of t0) as [message|t'].
        -- destruct Hrun as (r & w'' & Hrun & (Hres & _) & _).
           rewrite Hrun in Hload. injection Hload as <- <-.
           eexists. split; [exact Hres|]. simpl. split; [|done].
           intros _. split; [done|]. by exists t0.
        -- destruct Hrun as (w'' & Hrun & _). by rewrite Hrun in Hload.
    + destruct Hrun as (r & w'' & Hrun & (Hres & _) & _).
      rewrite Hrun in Hload. injection Hload as <- <-.
      eexists. split; [exact Hres|]. simpl. split; [done|]. by intros [? _].
Qed.

End claims.
End FullFacts.
